(** * Karitham/robot: the Markov chain engine

    A shallow embedding of the two chain engines of the repository:

    - the tuple builder of [v2/brain/learn.go] ([tupleToks], [Learn],
      [Forget]) over an abstract [Learner] backend;
    - the first engine of [robot.go] ([Filter], [Walk]) over a
      [map[string][]string] chain.

    Go strings are byte sequences: they are modelled by [string], whose
    characters are the 256 values of [ascii].  The pieces of the Go
    standard library that the engines call ([strings.ToLower],
    [strings.Join], [strings.Repeat], [strings.Fields],
    [strings.TrimRight], the UTF-8 decoder behind them) are modelled at
    byte level, after their Go sources. *)

From Stdlib Require Import ZArith Ascii String List Lia Bool.
From stdpp Require Import gmap strings list.

Open Scope string_scope.
Open Scope list_scope.
Open Scope Z_scope.

(** ** Bytes and Go slices *)

(** A Go [byte] as an integer in [0, 256). *)
Definition byte_val (b : ascii) : Z := Z.of_N (N_of_ascii b).

(** The conversion [byte(x)] for an [x] in range. *)
Definition byte_of (x : Z) : ascii := ascii_of_N (Z.to_N x).

(** [len(s)] of a Go string: its number of bytes, as a Go [int]. *)
Definition len (s : string) : Z := Z.of_nat (String.length s).

(** [s[i:j]] of a slice (or string as a list), for [0 <= i <= j <= len]. *)
Definition slice {A} (l : list A) (i j : nat) : list A :=
  take (j - i) (drop i l).

(** [make([]string, n)]: [n] zero values, that is empty strings. *)
Definition make (n : nat) : list string := replicate n "".

(** The builtin [copy(dst, src)]: the first [min(len(dst), len(src))]
    elements of [dst] are overwritten, the others are kept. *)
Definition copy {A} (dst src : list A) : list A :=
  take (length dst) src ++ drop (length src) dst.

(** [s[i]] of a Go string, read only under a length check. *)
Definition at_ (s : string) (i : nat) : Z :=
  match String.get i s with
  | Some b => byte_val b
  | None => 0
  end.

(** The conversions [uint32(r)] of a rune and [byte(x)] of an integer. *)
Definition uint32 (r : Z) : Z := r mod 2 ^ 32.
Definition byte (x : Z) : Z := x mod 2 ^ 8.

(** The two control bytes that the first engine stores in its chain:
    the end marker and the start marker. *)
Definition NUL : string := String "000" "".
Definition SOH : string := String "001" "".

(** ** Go's [unicode/utf8] *)

Module utf8.

Definition RuneError : Z := 0xFFFD.
Definition RuneSelf : Z := 0x80.
Definition MaxRune : Z := 0x10FFFF.
Definition surrogateMin : Z := 0xD800.
Definition surrogateMax : Z := 0xDFFF.

Definition t2 : Z := 0xC0.
Definition t3 : Z := 0xE0.
Definition t4 : Z := 0xF0.
Definition tx : Z := 0x80.
Definition maskx : Z := 0x3F.
Definition mask2 : Z := 0x1F.
Definition mask3 : Z := 0x0F.
Definition mask4 : Z := 0x07.
Definition rune1Max : Z := 0x7F.
Definition rune2Max : Z := 0x7FF.
Definition rune3Max : Z := 0xFFFF.
Definition locb : Z := 0x80.
Definition hicb : Z := 0xBF.

(** An entry of the table [first]: an ASCII byte, an invalid leading
    byte, or a leading byte with the size of its sequence and the
    range accepted for its second byte. *)
Inductive lead : Type :=
| AS
| XX
| SZ (size : nat) (lo hi : Z).

Definition first (s0 : Z) : lead :=
  if s0 <? 0x80 then AS
  else if s0 <? 0xC2 then XX
  else if s0 <? 0xE0 then SZ 2 locb hicb
  else if s0 =? 0xE0 then SZ 3 0xA0 hicb
  else if s0 <? 0xED then SZ 3 locb hicb
  else if s0 =? 0xED then SZ 3 locb 0x9F
  else if s0 <? 0xF0 then SZ 3 locb hicb
  else if s0 =? 0xF0 then SZ 4 0x90 hicb
  else if s0 <? 0xF4 then SZ 4 locb hicb
  else if s0 =? 0xF4 then SZ 4 locb 0x8F
  else XX.

(** [DecodeRuneInString]: the first rune of [s] and its width in
    bytes; [(RuneError, 1)] at an invalid or truncated sequence. *)
Definition DecodeRuneInString (s : string) : Z * nat :=
  let n := String.length s in
  if (n <? 1)%nat then (RuneError, 0%nat)
  else
    let s0 := at_ s 0 in
    match first s0 with
    | AS => (s0, 1%nat)
    | XX => (RuneError, 1%nat)
    | SZ sz lo hi =>
        if (n <? sz)%nat then (RuneError, 1%nat)
        else
          let s1 := at_ s 1 in
          if (s1 <? lo) || (hi <? s1) then (RuneError, 1%nat)
          else if (sz <=? 2)%nat then
            (Z.lor (Z.shiftl (Z.land s0 mask2) 6) (Z.land s1 maskx), 2%nat)
          else
            let s2 := at_ s 2 in
            if (s2 <? locb) || (hicb <? s2) then (RuneError, 1%nat)
            else if (sz <=? 3)%nat then
              (Z.lor (Z.lor (Z.shiftl (Z.land s0 mask3) 12)
                            (Z.shiftl (Z.land s1 maskx) 6))
                     (Z.land s2 maskx), 3%nat)
            else
              let s3 := at_ s 3 in
              if (s3 <? locb) || (hicb <? s3) then (RuneError, 1%nat)
              else
                (Z.lor (Z.lor (Z.lor (Z.shiftl (Z.land s0 mask4) 18)
                                     (Z.shiftl (Z.land s1 maskx) 12))
                              (Z.shiftl (Z.land s2 maskx) 6))
                       (Z.land s3 maskx), 4%nat)
    end.

(** [for i, c := range s]: the runes of [s] in order, each with the
    bytes it was decoded from.  [skip] counts the bytes still covered
    by the rune decoded last. *)
Fixpoint range_from (skip : nat) (s : string) : list (Z * string) :=
  match s with
  | EmptyString => []
  | String _ s' =>
      match skip with
      | S k => range_from k s'
      | O =>
          let '(r, w) := DecodeRuneInString s in
          (r, substring 0 w s) :: range_from (w - 1) s'
      end
  end.

Definition range (s : string) : list (Z * string) := range_from 0 s.

(** [AppendRune] to an empty buffer: the UTF-8 encoding of [r], that
    of [RuneError] when [r] is not a valid code point. *)
Definition appendRuneNonASCII (r : Z) : string :=
  let i := uint32 r in
  let three (r : Z) :=
    String (byte_of (Z.lor t3 (byte (Z.shiftr r 12))))
      (String (byte_of (Z.lor tx (Z.land (byte (Z.shiftr r 6)) maskx)))
         (String (byte_of (Z.lor tx (Z.land (byte r) maskx))) "")) in
  if i <=? rune2Max then
    String (byte_of (Z.lor t2 (byte (Z.shiftr r 6))))
      (String (byte_of (Z.lor tx (Z.land (byte r) maskx))) "")
  else if (MaxRune <? i) || ((surrogateMin <=? i) && (i <=? surrogateMax))
  then three RuneError
  else if i <=? rune3Max then three r
  else
    String (byte_of (Z.lor t4 (byte (Z.shiftr r 18))))
      (String (byte_of (Z.lor tx (Z.land (byte (Z.shiftr r 12)) maskx)))
         (String (byte_of (Z.lor tx (Z.land (byte (Z.shiftr r 6)) maskx)))
            (String (byte_of (Z.lor tx (Z.land (byte r) maskx))) ""))).

Definition AppendRune (r : Z) : string :=
  if uint32 r <=? rune1Max then String (byte_of (byte r)) ""
  else appendRuneNonASCII r.

(** [ValidRune]: the code points that UTF-8 encodes, all but the
    surrogates. *)
Definition ValidRune (r : Z) : bool :=
  if (0 <=? r) && (r <? surrogateMin) then true
  else if (surrogateMax <? r) && (r <=? MaxRune) then true
  else false.

(** The encoding of a sequence of runes. *)
Definition AppendRunes (rs : list Z) : string :=
  foldr (fun r out => AppendRune r +:+ out) "" rs.

End utf8.

(** ** Go's [unicode] *)

Module unicode.

Definition MaxASCII : Z := 0x7F.
Definition MaxLatin1 : Z := 0xFF.

(** [ToLower].  Above ASCII the answer is read from the case tables
    of the Unicode data, [To(LowerCase, r)]: the tables are the
    parameter [To_LowerCase]. *)
Definition ToLower (To_LowerCase : Z -> Z) (r : Z) : Z :=
  if r <=? MaxASCII then
    if (65 <=? r) && (r <=? 90) then r + (97 - 65) else r
  else To_LowerCase r.

(** [IsSpace]: the Latin-1 spaces are listed in the function, the
    others are the rest of the range table [White_Space]. *)
Definition IsSpace (r : Z) : bool :=
  if uint32 r <=? MaxLatin1 then
    (r =? 9) || (r =? 10) || (r =? 11) || (r =? 12) || (r =? 13)
    || (r =? 32) || (r =? 0x85) || (r =? 0xA0)
  else
    (r =? 0x1680) || ((0x2000 <=? r) && (r <=? 0x200A))
    || (r =? 0x2028) || (r =? 0x2029) || (r =? 0x202F) || (r =? 0x205F)
    || (r =? 0x3000).

End unicode.

(** ** Go's [strings] *)

Module strings.

(** [Join(elems, sep)]. *)
Fixpoint Join (elems : list string) (sep : string) : string :=
  match elems with
  | [] => ""
  | [a] => a
  | a :: rest => a +:+ sep +:+ Join rest sep
  end.

(** [Repeat(s, count)] for a [count] that is not negative. *)
Fixpoint Repeat (s : string) (count : nat) : string :=
  match count with
  | O => ""
  | S k => s +:+ Repeat s k
  end.

(** [Map(mapping, s)]: every rune of [s] is replaced by its image,
    encoded again; a negative image drops the rune.  A byte that starts
    no valid sequence counts as [RuneError]. *)
Definition Map (mapping : Z -> Z) (s : string) : string :=
  foldr (fun (c : Z * string) (out : string) =>
           let r := mapping c.1 in
           if 0 <=? r then utf8.AppendRune r +:+ out else out)
        "" (utf8.range s).

(** The two flags that the first loop of [ToLower] computes. *)
Fixpoint isASCII (s : string) : bool :=
  match s with
  | EmptyString => true
  | String c s' => (byte_val c <? utf8.RuneSelf) && isASCII s'
  end.

Fixpoint hasUpper (s : string) : bool :=
  match s with
  | EmptyString => false
  | String c s' =>
      ((65 <=? byte_val c) && (byte_val c <=? 90)) || hasUpper s'
  end.

(** The byte loop of the ASCII branch of [ToLower]. *)
Fixpoint lowerASCII (s : string) : string :=
  match s with
  | EmptyString => ""
  | String c s' =>
      let x := byte_val c in
      String (if (65 <=? x) && (x <=? 90) then byte_of (x + (97 - 65)) else c)
             (lowerASCII s')
  end.

(** [ToLower(s)]. *)
Definition ToLower (To_LowerCase : Z -> Z) (s : string) : string :=
  if isASCII s then
    if negb (hasUpper s) then s else lowerASCII s
  else Map (unicode.ToLower To_LowerCase) s.

(** [trimRightByte(s, c)], to which [TrimRight(s, cutset)] comes down
    when [cutset] is one ASCII byte. *)
Fixpoint trimRightByte (s : string) (c : ascii) : string :=
  match s with
  | EmptyString => ""
  | String b s' =>
      match trimRightByte s' c with
      | EmptyString => if Ascii.eqb b c then "" else String b ""
      | t => String b t
      end
  end.

(** [TrimRight(s, cutset)] for a cutset of one ASCII byte, the only
    use the engine makes of it. *)
Definition TrimRight (s : string) (cutset : ascii) : string :=
  trimRightByte s cutset.

(** The loop of [FieldsFunc(s, f)]: [cur] is the field being read, if
    any. *)
Fixpoint FieldsFunc_range (f : Z -> bool) (cur : option string)
    (rs : list (Z * string)) : list string :=
  match rs with
  | [] =>
      match cur with
      | Some fld => [fld]
      | None => []
      end
  | (r, bytes) :: rs' =>
      if f r then
        match cur with
        | Some fld => fld :: FieldsFunc_range f None rs'
        | None => FieldsFunc_range f None rs'
        end
      else
        FieldsFunc_range f (Some (default "" cur +:+ bytes)) rs'
  end.

Definition FieldsFunc (s : string) (f : Z -> bool) : list string :=
  FieldsFunc_range f None (utf8.range s).

(** [Fields(s)]: [s] split around each run of white space. *)
Definition Fields (s : string) : list string :=
  FieldsFunc s unicode.IsSpace.

End strings.

(** ** The v2 engine: [v2/brain/learn.go] *)

(** [Tuple] is a single Markov chain tuple. *)
Record Tuple : Type := mkTuple {
  Prefix : list string;
  Suffix : string
}.

(** [MessageMeta] holds metadata about a message; the identifier, the
    user hash and the time are opaque to the engine. *)
Record MessageMeta : Type := mkMeta {
  ID : string;
  User : string;
  Tag : string;
  Time : Z
}.

(** What a Go call does: it returns, or it panics. *)
Inductive outcome (A : Type) : Type :=
| Returned (a : A)
| Panicked (msg : string).
Arguments Returned {A} a.
Arguments Panicked {A} msg.

(** The [Learner] interface over a backend with states [B].  [Order] is
    read from the backend; the methods [Learn] and [Forget], here
    [LearnTuples] and [ForgetTuples], update it and return their
    [error] ([None] is [nil]).  The context argument of the Go methods
    carries cancellation to the backend and is left out. *)
Class Learner (B : Type) : Type := {
  Order : B -> Z;
  LearnTuples : MessageMeta -> list Tuple -> B -> B * option string;
  ForgetTuples : string -> list Tuple -> B -> B * option string
}.

Module brain.
Section Brain.

(** [ReduceEntropy] is declared in another file of the package, which
    is not part of the sources at hand: it is a parameter of the
    tuple builder. *)
Variable ReduceEntropy : string -> string.

(** One round of the body shared by the loop of [tupleToks] and by its
    last tuple: a fresh prefix of [n] empty strings, the previous
    prefix copied one slot to the left, and the reduced previous
    suffix stored in the last slot. *)
Definition shift (n : nat) (p : Tuple) (w : string) : Tuple :=
  let q := mkTuple (make n) w in
  let q := mkTuple (copy (Prefix q) (drop 1 (Prefix p))) (Suffix q) in
  mkTuple (<[(n - 1)%nat := ReduceEntropy (Suffix p)]> (Prefix q)) (Suffix q).

(** [for _, w := range toks { ... }]: the loop state is [(tt, p)]. *)
Fixpoint tupleToks_range (n : nat) (tt : list Tuple) (p : Tuple)
    (toks : list string) : list Tuple * Tuple :=
  match toks with
  | [] => (tt, p)
  | w :: toks' =>
      let q := shift n p w in
      tupleToks_range n (tt ++ [q]) q toks'
  end.

(** [tupleToks].  With [n < 1] the Go function panics at run time
    ([make] of a negative length, or [p.Prefix[1:]] of an empty
    slice): that is [None]. *)
Definition tupleToks (tt : list Tuple) (toks : list string) (n : Z)
    : option (list Tuple) :=
  if n <? 1 then None
  else
    let n' := Z.to_nat n in
    let p := mkTuple (make n') "" in
    let st := tupleToks_range n' tt p toks in
    Some (st.1 ++ [shift n' st.2 ""]).

(** The words that the prefixes are windows of: the prefix of [p], its
    reduced suffix, the reduced tokens. *)
Definition ribbon (p : Tuple) (toks : list string) : list string :=
  Prefix p ++ ReduceEntropy (Suffix p) :: (ReduceEntropy <$> toks).

(** The tuples in closed form: tuple [i] has for prefix the window of
    width [n] that starts at [i + 1] in the ribbon and for suffix the
    token [i]; the last one has the empty suffix. *)
Definition windows (n : nat) (p : Tuple) (toks : list string) : list Tuple :=
  imap (fun i w => mkTuple (take n (drop (S i) (ribbon p toks))) w)
       (toks ++ [""]).

Section WithLearner.
Context {B : Type} {L : Learner B}.

Definition order_panic : string := "order must be at least 1".

(** [Learn] records tokens into a Learner. *)
Definition Learn (meta : MessageMeta) (toks : list string) (l : B)
    : B * outcome (option string) :=
  let n := Order l in
  if n <? 1 then (l, Panicked order_panic)
  else
    match tupleToks [] toks n with
    | Some tuples =>
        let '(l', err) := LearnTuples meta tuples l in (l', Returned err)
    | None => (l, Panicked "runtime error")
    end.

(** [Forget] removes tokens from a Learner. *)
Definition Forget (tag : string) (toks : list string) (l : B)
    : B * outcome (option string) :=
  let n := Order l in
  if n <? 1 then (l, Panicked order_panic)
  else
    match tupleToks [] toks n with
    | Some tuples =>
        let '(l', err) := ForgetTuples tag tuples l in (l', Returned err)
    | None => (l, Panicked "runtime error")
    end.
End WithLearner.

End Brain.
End brain.

(** A backend that only records the calls it receives, in order; it
    shows what [Learn] and [Forget] hand over to a backend. *)
Inductive call : Type :=
| LearnCall (meta : MessageMeta) (tuples : list Tuple)
| ForgetCall (tag : string) (tuples : list Tuple).

Record recorder : Type := mkRecorder {
  rec_order : Z;
  rec_calls : list call
}.

#[export] Instance recorder_Learner : Learner recorder := {|
  Order r := rec_order r;
  LearnTuples meta tuples r :=
    (mkRecorder (rec_order r) (rec_calls r ++ [LearnCall meta tuples]), None);
  ForgetTuples tag tuples r :=
    (mkRecorder (rec_order r) (rec_calls r ++ [ForgetCall tag tuples]), None)
|}.

(** ** The first engine: [robot.go] *)

Module robot.
Section Robot.

(** The case tables behind [strings.ToLower]. *)
Variable To_LowerCase : Z -> Z.

(** The global [prefix], the order of the chain: set from the flag
    [-length] and checked in [main] to be at least 1 before any
    message is read. *)
Variable prefix : nat.

Local Abbreviation ToLower := (strings.ToLower To_LowerCase).

(** [c[word] = append(c[word], x)]; a missing key reads as [nil]. *)
Definition append_at (c : gmap string (list string)) (word x : string)
    : gmap string (list string) :=
  <[word := default [] (c !! word) ++ [x]]> c.

(** [words[i]] under the loop conditions that keep [i] in range. *)
Definition index (words : list string) (i : nat) : string :=
  default "" (words !! i).

(** The first loop of [Filter], [for i := 0; i < prefix; i++], from
    index [i] with [todo] rounds left.  The boolean tells whether the
    loop ran into its [return]. *)
Fixpoint Filter_head (todo i : nat) (c : gmap string (list string))
    (words : list string) : gmap string (list string) * bool :=
  match todo with
  | O => (c, false)
  | S todo' =>
      let word :=
        strings.Repeat (SOH +:+ " ") (prefix - i)
        +:+ ToLower (strings.Join (slice words 0 i) " ") in
      if (length words <=? i)%nat then (append_at c word NUL, true)
      else Filter_head todo' (S i) (append_at c word (index words i)) words
  end.

(** How the second loop of [Filter] ends: it leaves the loop (by its
    condition or by [break]), or it calls [Filter] on the words after
    an empty one and returns. *)
Inductive tail_exit : Type :=
| Leave (c : gmap string (list string))
| Restart (c : gmap string (list string)) (rest : list string).

(** The second loop, [for i := prefix; i < len(words); i++]. *)
Fixpoint Filter_tail (todo i : nat) (c : gmap string (list string))
    (words : list string) : tail_exit :=
  match todo with
  | O => Leave c
  | S todo' =>
      if len (index words i) =? 0 then
        if (i <? length words - 1)%nat then Restart c (drop (S i) words)
        else Leave c
      else
        let word := ToLower (strings.Join (slice words (i - prefix) i) " ") in
        Filter_tail todo' (S i) (append_at c word (index words i)) words
  end.

(** [Filter].  The function calls itself on a strict suffix of
    [words]; [fuel] bounds the depth of these calls. *)
Fixpoint Filter_fuel (fuel : nat) (c : gmap string (list string))
    (words : list string) : option (gmap string (list string)) :=
  match fuel with
  | O => None
  | S fuel' =>
      match Filter_head prefix 0 c words with
      | (c1, true) => Some c1
      | (c1, false) =>
          match Filter_tail (length words - prefix) prefix c1 words with
          | Restart c2 rest => Filter_fuel fuel' c2 rest
          | Leave c2 =>
              let word :=
                ToLower (strings.Join
                           (slice words (length words - prefix) (length words))
                           " ") in
              Some (append_at c2 word NUL)
          end
      end
  end.

Definition Filter (c : gmap string (list string)) (words : list string)
    : option (gmap string (list string)) :=
  Filter_fuel (S (length words)) c words.

(** The [(key, suffix)] pairs that [Filter] writes, in the order of
    its writes: the same three loops, on a log instead of the chain. *)
Fixpoint writes_head (todo i : nat) (words : list string)
    : list (string * string) * bool :=
  match todo with
  | O => ([], false)
  | S todo' =>
      let word :=
        strings.Repeat (SOH +:+ " ") (prefix - i)
        +:+ ToLower (strings.Join (slice words 0 i) " ") in
      if (length words <=? i)%nat then ([(word, NUL)], true)
      else
        let '(ws, ret) := writes_head todo' (S i) words in
        ((word, index words i) :: ws, ret)
  end.

Fixpoint writes_tail (todo i : nat) (words : list string)
    : list (string * string) * option (list string) :=
  match todo with
  | O => ([], None)
  | S todo' =>
      if len (index words i) =? 0 then
        if (i <? length words - 1)%nat then ([], Some (drop (S i) words))
        else ([], None)
      else
        let word := ToLower (strings.Join (slice words (i - prefix) i) " ") in
        let '(ws, rest) := writes_tail todo' (S i) words in
        ((word, index words i) :: ws, rest)
  end.

Fixpoint writes_fuel (fuel : nat) (words : list string)
    : option (list (string * string)) :=
  match fuel with
  | O => None
  | S fuel' =>
      match writes_head prefix 0 words with
      | (ws1, true) => Some ws1
      | (ws1, false) =>
          match writes_tail (length words - prefix) prefix words with
          | (ws2, Some rest) =>
              ws3 ← writes_fuel fuel' rest; Some (ws1 ++ ws2 ++ ws3)
          | (ws2, None) =>
              let word :=
                ToLower (strings.Join
                           (slice words (length words - prefix) (length words))
                           " ") in
              Some (ws1 ++ ws2 ++ [(word, NUL)])
          end
      end
  end.

Definition Filter_writes (words : list string)
    : option (list (string * string)) :=
  writes_fuel (S (length words)) words.

(** The chain after the writes of a log. *)
Definition record (c : gmap string (list string))
    (ws : list (string * string)) : gmap string (list string) :=
  foldl (fun c kv => append_at c kv.1 kv.2) c ws.

(** [c[key]], the occurrences stored under a key; [nil] reads as the
    empty list. *)
Definition suffixes (c : gmap string (list string)) (key : string)
    : list string :=
  default [] (c !! key).

(** The number of occurrences stored in a chain, over all its keys. *)
Definition occurrences (c : gmap string (list string)) : nat :=
  sum_list ((fun kv : string * list string => length kv.2)
              <$> map_to_list c).

(** No key of the chain holds the start marker as a suffix. *)
Definition unmarked (c : gmap string (list string)) : Prop :=
  forall key words, c !! key = Some words -> SOH ∉ words.

(** The word that [main] starts every walk from. *)
Definition start_word : string := strings.Repeat (SOH +:+ " ") prefix.

(** The variables of the loop of [Walk]. *)
Record walk_state : Type := mkWalk {
  word : string;
  s : list string;
  sum : Z
}.

(** What one round of the loop of [Walk] does. *)
Inductive round : Type :=
| Break
| Next (st : walk_state)
| Panic (msg : string).

(** [words[r]] for the [words] found under the key of [word]: the
    next word when [rand.Intn(len(words))] returns [r]. *)
Definition Walk_nextword (c : gmap string (list string)) (word : string)
    (r : nat) : option string :=
  words ← c !! ToLower word; words !! r.

(** One round of [for sum < 400 { ... }].  [draw] is the number that
    the random source produces in this round, which [rand.Intn(n)]
    brings into [0, n); [rand.Intn(0)] panics.  A missing key reads as
    [nil] and ends the loop; a key bound to the empty list stands for
    an empty slice that is not [nil]. *)
Definition Walk_round (c : gmap string (list string)) (draw : nat)
    (st : walk_state) : round :=
  match c !! ToLower (word st) with
  | None => Break
  | Some words =>
      if (length words =? 0)%nat then Panic "invalid argument to Intn"
      else
        let nextword :=
          default "" (Walk_nextword c (word st) (draw mod length words)) in
        if String.eqb nextword NUL then Break
        else
          let st1 :=
            if negb (String.eqb nextword SOH)
            then mkWalk (word st) (s st ++ [nextword])
                        (sum st + (len nextword + 1))
            else st in
          match strings.Fields (strings.TrimRight (word st) " ") with
          | [] => Panic "slice bounds out of range"
          | _ :: fields =>
              Next (mkWalk (strings.Join (fields ++ [nextword]) " ")
                           (s st1) (sum st1))
          end
  end.

(** The loop of [Walk], for at most [fuel] rounds; [None] when the
    loop asks for one more round than that.  [rnd k] is the number
    drawn in round [k]. *)
Fixpoint Walk_loop (fuel : nat) (rnd : nat -> nat) (k : nat)
    (c : gmap string (list string)) (st : walk_state)
    : option (outcome string) :=
  if sum st <? 400 then
    match fuel with
    | O => None
    | S fuel' =>
        match Walk_round c (rnd k) st with
        | Break => Some (Returned (strings.Join (s st) " "))
        | Panic msg => Some (Panicked msg)
        | Next st' => Walk_loop fuel' rnd (S k) c st'
        end
    end
  else Some (Returned (strings.Join (s st) " ")).

(** [Walk], run for at most [fuel] rounds of its loop. *)
Definition Walk (fuel : nat) (rnd : nat -> nat)
    (c : gmap string (list string)) (word : string)
    : option (outcome string) :=
  Walk_loop fuel rnd 0 c (mkWalk word [] 0).

(** A message with start markers in it and a space at its end, as
    [main] splits it: ["a \001 \001 "]. *)
Definition marked_message : list string := ["a"; SOH; SOH; ""].

(** The chain that an empty chain of order 1 becomes once this message
    is learned. *)
Definition marked_chain : gmap string (list string) :=
  {[ SOH +:+ " " := ["a"]; "a" := [SOH]; SOH := [SOH]; "" := [NUL] ]}.

(** The loop variables of [Walk] after two rounds on this chain. *)
Definition marked_state : walk_state := mkWalk SOH ["a"] 2.

(** The loop of [badmatch],
    [for i := len(src) - 1; i-(len(src)-len(walk)) >= 0; i--], with
    [todo] rounds left: round [i] compares [src[i]] with the word of
    [walk] at [i - (len(src) - len(walk))]. *)
Fixpoint badmatch_loop (todo : nat) (walk src : list string) : bool :=
  match todo with
  | O => true
  | S todo' =>
      let i := (length src - length walk + todo')%nat in
      let word := index walk (i - (length src - length walk)) in
      if negb (String.eqb (ToLower (index src i)) (ToLower word))
      then false
      else badmatch_loop todo' walk src
  end.

(** [badmatch]: whether the generated words are the last words of the
    message, up to case. *)
Definition badmatch (walk src : list string) : bool :=
  if (length src <? length walk)%nat then false
  else badmatch_loop (length walk) walk src.

(** Every key of the chain holds at least one occurrence. *)
Definition stocked (c : gmap string (list string)) : Prop :=
  forall key words, c !! key = Some words -> words <> [].

(** What [Walk] adds to [sum] for the words of [s]: the length of
    each, and one more. *)
Fixpoint weight (s : list string) : Z :=
  match s with
  | [] => 0
  | w :: s' => len w + 1 + weight s'
  end.

(** A word drawn from the chain: one of its suffixes, and none of the
    two markers. *)
Definition drawn (c : gmap string (list string)) (w : string) : Prop :=
  w <> NUL /\ w <> SOH
  /\ exists key words, c !! key = Some words /\ w ∈ words.

(** What the loop of [Walk] keeps: [sum] is the weight of [s], the
    words of [s] were drawn from the chain, and the words but the
    last weigh less than 400. *)
Definition walk_inv (c : gmap string (list string)) (st : walk_state)
    : Prop :=
  sum st = weight (s st)
  /\ Forall (drawn c) (s st)
  /\ (s st = [] \/ exists s0 w, s st = s0 ++ [w] /\ weight s0 < 400).

(** The bytes that the runes of a range loop were decoded from, put
    together again. *)
Definition chunks (l : list (Z * string)) : string :=
  foldr (fun p acc => p.2 +:+ acc) "" l.

(** A token: a word that is not empty and has no white space, which
    [strings.Fields] leaves whole. *)
Definition token (w : string) : Prop :=
  w <> ""
  /\ Forall (fun p : Z * string => unicode.IsSpace p.1 = false)
            (utf8.range w).

(** The key under which [Filter] writes the word [i] of a message
    without empty word, and the end marker for [i = len(words)]. *)
Definition Filter_key (words : list string) (i : nat) : string :=
  if (i <? prefix)%nat then
    strings.Repeat (SOH +:+ " ") (prefix - i)
    +:+ ToLower (strings.Join (slice words 0 i) " ")
  else ToLower (strings.Join (slice words (i - prefix) i) " ").

(** A walk over a learned message: the start markers and the words;
    the fields of the word of round [i], a window of the tape; the
    word of round [i]; the loop variables before round [i]. *)
Definition tape (words : list string) : list string :=
  replicate prefix SOH ++ words.

Definition frame (words : list string) (i : nat) : list string :=
  take prefix (drop i (tape words)).

Definition walk_word (words : list string) (i : nat) : string :=
  match i with
  | O => start_word
  | S _ => strings.Join (frame words i) " "
  end.

Definition walk_at (words : list string) (i : nat) : walk_state :=
  mkWalk (walk_word words i) (take i words) (weight (take i words)).

End Robot.
End robot.

(** ** The configuration: [config.go] *)

Module config.

(** A Go [int] on a 64-bit platform: a sum wraps around. *)
Definition int_wrap (x : Z) : Z := (x + 2 ^ 63) mod 2 ^ 64 - 2 ^ 63.

(** [u[k] += v]; a missing key reads as 0. *)
Definition add_at (u : gmap string Z) (k : string) (v : Z) : gmap string Z :=
  <[k := int_wrap (default 0 (u !! k) + v)]> u.

(** [mergemaps]: the loop over the maps, in the order of the
    arguments, and in it the loop over the entries of a map, which Go
    runs in an order of its own. *)
Definition mergemaps (ms : list (gmap string Z)) : gmap string Z :=
  foldl (fun u m => map_fold (fun k v u => add_at u k v) u m) ∅ ms.

End config.

(** ** A case table

    The part of the Unicode case tables that covers Latin-1: the
    capital letters [U+00C0] to [U+00DE], but the multiplication sign,
    have their small letter 32 code points further. *)
Definition latin1_lower (r : Z) : Z :=
  if (0xC0 <=? r) && (r <=? 0xDE) && negb (r =? 0xD7) then r + 32 else r.

(** ** A canonicalizer that strips punctuation

    Modelled from the spec: [ReduceEntropy] is not in the sources.  The
    spec leaves its rules open, casing and punctuation stripping among
    them, within a contract: deterministic, idempotent, the identity
    on the sentinel.  This one is within the contract and strips the
    marks [!], [,], [.] and [?]. *)
Definition is_mark (b : ascii) : bool :=
  (Ascii.eqb b "!" || Ascii.eqb b "," || Ascii.eqb b "." || Ascii.eqb b "?")%char.

Fixpoint strip_marks (w : string) : string :=
  match w with
  | EmptyString => EmptyString
  | String b w' => if is_mark b then strip_marks w' else String b (strip_marks w')
  end.


(** * Proofs

    ** Bytes *)

Lemma byte_val_range (c : ascii) : 0 <= byte_val c < 256.
Proof.
  unfold byte_val. pose proof (N_ascii_bounded c). lia.
Qed.

Lemma byte_val_of (x : Z) : 0 <= x < 256 -> byte_val (byte_of x) = x.
Proof.
  intros Hx. unfold byte_val, byte_of. rewrite N_ascii_embedding by lia. lia.
Qed.

Lemma byte_of_val (c : ascii) : byte_of (byte_val c) = c.
Proof.
  unfold byte_val, byte_of. rewrite N2Z.id. apply ascii_N_embedding.
Qed.

(** ** Bit operations as arithmetic *)

Lemma land_disjoint (a b n : Z) :
  0 <= n -> 0 <= b < 2 ^ n -> Z.land (a * 2 ^ n) b = 0.
Proof.
  intros Hn Hb. apply Z.bits_inj'. intros m Hm.
  rewrite Z.land_spec, Z.bits_0.
  destruct (Z.lt_ge_cases m n) as [Hlt|Hge].
  - by rewrite Z.mul_pow2_bits_low.
  - rewrite <- (Z.mod_small b (2 ^ n)) by done.
    rewrite Z.mod_pow2_bits_high by lia. apply andb_false_r.
Qed.

Lemma lor_add (a b n : Z) :
  0 <= n -> 0 <= b < 2 ^ n -> Z.lor (a * 2 ^ n) b = a * 2 ^ n + b.
Proof.
  intros Hn Hb. pose proof (Z.add_lor_land (a * 2 ^ n) b) as H.
  rewrite land_disjoint in H by done. lia.
Qed.

Lemma land_mask (x n : Z) : 0 <= n -> Z.land x (2 ^ n - 1) = x mod 2 ^ n.
Proof.
  intros Hn. rewrite <- Z.land_ones by done. f_equal.
  rewrite Z.ones_equiv. lia.
Qed.

Lemma land_3F x : Z.land x utf8.maskx = x mod 64.
Proof. apply (land_mask x 6). lia. Qed.
Lemma land_1F x : Z.land x utf8.mask2 = x mod 32.
Proof. apply (land_mask x 5). lia. Qed.
Lemma land_0F x : Z.land x utf8.mask3 = x mod 16.
Proof. apply (land_mask x 4). lia. Qed.
Lemma land_07 x : Z.land x utf8.mask4 = x mod 8.
Proof. apply (land_mask x 3). lia. Qed.

Lemma shiftr_6 x : Z.shiftr x 6 = x / 64.
Proof. by rewrite Z.shiftr_div_pow2. Qed.
Lemma shiftr_12 x : Z.shiftr x 12 = x / 4096.
Proof. by rewrite Z.shiftr_div_pow2. Qed.
Lemma shiftr_18 x : Z.shiftr x 18 = x / 262144.
Proof. by rewrite Z.shiftr_div_pow2. Qed.
Lemma shiftl_6 x : Z.shiftl x 6 = x * 2 ^ 6.
Proof. by rewrite Z.shiftl_mul_pow2. Qed.
Lemma shiftl_12 x : Z.shiftl x 12 = x * 2 ^ 12.
Proof. by rewrite Z.shiftl_mul_pow2. Qed.
Lemma shiftl_18 x : Z.shiftl x 18 = x * 2 ^ 18.
Proof. by rewrite Z.shiftl_mul_pow2. Qed.

(** The marker bits of the encoder sit above the payload. *)
Lemma lor_tx x : 0 <= x < 64 -> Z.lor utf8.tx x = 128 + x.
Proof. intros Hx. apply (lor_add 2 x 6); lia. Qed.
Lemma lor_t2 x : 0 <= x < 32 -> Z.lor utf8.t2 x = 192 + x.
Proof. intros Hx. apply (lor_add 3 x 6); lia. Qed.
Lemma lor_t3 x : 0 <= x < 16 -> Z.lor utf8.t3 x = 224 + x.
Proof. intros Hx. apply (lor_add 7 x 5); lia. Qed.
Lemma lor_t4 x : 0 <= x < 8 -> Z.lor utf8.t4 x = 240 + x.
Proof. intros Hx. apply (lor_add 15 x 4); lia. Qed.

Lemma lor_add_aligned (a b n : Z) :
  0 <= n -> a mod 2 ^ n = 0 -> 0 <= b < 2 ^ n -> Z.lor a b = a + b.
Proof.
  intros Hn Ha Hb.
  assert (a = a / 2 ^ n * 2 ^ n) as ->.
  { pose proof (Z.div_mod a (2 ^ n) ltac:(lia)). lia. }
  by apply lor_add.
Qed.

(** The rune that the decoder assembles from two, three and four
    bytes. *)
Lemma rune2_arith x0 x1 :
  Z.lor (Z.shiftl (Z.land x0 utf8.mask2) 6) (Z.land x1 utf8.maskx)
  = x0 mod 32 * 64 + x1 mod 64.
Proof.
  rewrite land_1F, land_3F, shiftl_6.
  pose proof (Z.mod_pos_bound x1 64 ltac:(lia)).
  rewrite lor_add by lia. lia.
Qed.

Lemma rune3_arith x0 x1 x2 :
  Z.lor (Z.lor (Z.shiftl (Z.land x0 utf8.mask3) 12)
               (Z.shiftl (Z.land x1 utf8.maskx) 6))
        (Z.land x2 utf8.maskx)
  = x0 mod 16 * 4096 + x1 mod 64 * 64 + x2 mod 64.
Proof.
  rewrite land_0F, !land_3F, shiftl_12, shiftl_6.
  pose proof (Z.mod_pos_bound x1 64 ltac:(lia)).
  pose proof (Z.mod_pos_bound x2 64 ltac:(lia)).
  rewrite (lor_add _ _ 12) by lia.
  rewrite (lor_add_aligned _ _ 6); [lia | lia | | lia].
  change (2 ^ 12) with (64 * 2 ^ 6).
  rewrite Z.mul_assoc, <- Z.mul_add_distr_r. apply Z.mod_mul. lia.
Qed.

Lemma rune4_arith x0 x1 x2 x3 :
  Z.lor (Z.lor (Z.lor (Z.shiftl (Z.land x0 utf8.mask4) 18)
                      (Z.shiftl (Z.land x1 utf8.maskx) 12))
               (Z.shiftl (Z.land x2 utf8.maskx) 6))
        (Z.land x3 utf8.maskx)
  = x0 mod 8 * 262144 + x1 mod 64 * 4096 + x2 mod 64 * 64 + x3 mod 64.
Proof.
  rewrite land_07, !land_3F, shiftl_18, shiftl_12, shiftl_6.
  pose proof (Z.mod_pos_bound x1 64 ltac:(lia)).
  pose proof (Z.mod_pos_bound x2 64 ltac:(lia)).
  pose proof (Z.mod_pos_bound x3 64 ltac:(lia)).
  rewrite (lor_add _ _ 18) by lia.
  rewrite (lor_add_aligned (_ + _) _ 12); [ | lia | | lia].
  2:{ change (2 ^ 18) with (64 * 2 ^ 12).
      rewrite Z.mul_assoc, <- Z.mul_add_distr_r. apply Z.mod_mul. lia. }
  rewrite (lor_add_aligned _ _ 6); [lia | lia | | lia].
  change (2 ^ 18) with (4096 * 2 ^ 6). change (2 ^ 12) with (64 * 2 ^ 6).
  rewrite !Z.mul_assoc, <- !Z.mul_add_distr_r. apply Z.mod_mul. lia.
Qed.

(** ** The UTF-8 decoder *)

Ltac decode_cases :=
  repeat match goal with
    | |- context [(?a <? ?b)%nat] => destruct (Nat.ltb_spec a b)
    | |- context [(?a <=? ?b)%nat] => destruct (Nat.leb_spec a b)
    | |- context [?a <? ?b] => destruct (Z.ltb_spec a b)
    | |- context [?a <=? ?b] => destruct (Z.leb_spec a b)
    | |- context [?a =? ?b] => destruct (Z.eqb_spec a b)
    end.

Ltac utf8_consts :=
  unfold utf8.locb, utf8.hicb, utf8.RuneError, utf8.RuneSelf, utf8.MaxRune,
    utf8.surrogateMin, utf8.surrogateMax, utf8.rune1Max, utf8.rune2Max,
    utf8.rune3Max in *.

Lemma first_ascii s0 : s0 < 0x80 -> utf8.first s0 = utf8.AS.
Proof. intros. unfold utf8.first. decode_cases; (done || lia). Qed.

Lemma first_two s0 :
  0xC2 <= s0 <= 0xDF -> utf8.first s0 = utf8.SZ 2 utf8.locb utf8.hicb.
Proof. intros. unfold utf8.first. decode_cases; (done || lia). Qed.

Lemma first_three s0 :
  0xE0 <= s0 <= 0xEF ->
  utf8.first s0
  = utf8.SZ 3 (if s0 =? 0xE0 then 0xA0 else utf8.locb)
              (if s0 =? 0xED then 0x9F else utf8.hicb).
Proof. intros. unfold utf8.first. decode_cases; (done || lia). Qed.

Lemma first_four s0 :
  0xF0 <= s0 <= 0xF4 ->
  utf8.first s0
  = utf8.SZ 4 (if s0 =? 0xF0 then 0x90 else utf8.locb)
              (if s0 =? 0xF4 then 0x8F else utf8.hicb).
Proof. intros. unfold utf8.first. decode_cases; (done || lia). Qed.

Lemma decode_one c0 rest :
  byte_val c0 < 0x80 ->
  utf8.DecodeRuneInString (String c0 rest) = (byte_val c0, 1%nat).
Proof.
  intros H. unfold utf8.DecodeRuneInString. cbn [String.length at_ String.get].
  by rewrite first_ascii.
Qed.

Lemma decode_two c0 c1 rest :
  0xC2 <= byte_val c0 <= 0xDF -> 0x80 <= byte_val c1 <= 0xBF ->
  utf8.DecodeRuneInString (String c0 (String c1 rest))
  = (byte_val c0 mod 32 * 64 + byte_val c1 mod 64, 2%nat).
Proof.
  intros H0 H1. unfold utf8.DecodeRuneInString.
  cbn [String.length at_ String.get]. rewrite first_two by done.
  rewrite rune2_arith. utf8_consts. cbn [Nat.ltb Nat.leb].
  decode_cases; (done || lia).
Qed.

Lemma decode_three c0 c1 c2 rest :
  0xE0 <= byte_val c0 <= 0xEF -> 0x80 <= byte_val c1 <= 0xBF ->
  (byte_val c0 = 0xE0 -> 0xA0 <= byte_val c1) ->
  (byte_val c0 = 0xED -> byte_val c1 <= 0x9F) ->
  0x80 <= byte_val c2 <= 0xBF ->
  utf8.DecodeRuneInString (String c0 (String c1 (String c2 rest)))
  = (byte_val c0 mod 16 * 4096 + byte_val c1 mod 64 * 64 + byte_val c2 mod 64,
     3%nat).
Proof.
  intros H0 H1 HE0 HED H2. unfold utf8.DecodeRuneInString.
  cbn [String.length at_ String.get]. rewrite first_three by done.
  rewrite rune3_arith. utf8_consts. cbn [Nat.ltb Nat.leb].
  destruct (Z.eqb_spec (byte_val c0) 0xE0), (Z.eqb_spec (byte_val c0) 0xED).
  all: decode_cases; (done || lia).
Qed.

Lemma decode_four c0 c1 c2 c3 rest :
  0xF0 <= byte_val c0 <= 0xF4 -> 0x80 <= byte_val c1 <= 0xBF ->
  (byte_val c0 = 0xF0 -> 0x90 <= byte_val c1) ->
  (byte_val c0 = 0xF4 -> byte_val c1 <= 0x8F) ->
  0x80 <= byte_val c2 <= 0xBF -> 0x80 <= byte_val c3 <= 0xBF ->
  utf8.DecodeRuneInString (String c0 (String c1 (String c2 (String c3 rest))))
  = (byte_val c0 mod 8 * 262144 + byte_val c1 mod 64 * 4096
     + byte_val c2 mod 64 * 64 + byte_val c3 mod 64, 4%nat).
Proof.
  intros H0 H1 HF0 HF4 H2 H3. unfold utf8.DecodeRuneInString.
  cbn [String.length at_ String.get]. rewrite first_four by done.
  rewrite rune4_arith. utf8_consts. cbn [Nat.ltb Nat.leb].
  destruct (Z.eqb_spec (byte_val c0) 0xF0), (Z.eqb_spec (byte_val c0) 0xF4).
  all: decode_cases; (done || lia).
Qed.

(** What the decoder returns is a code point that UTF-8 encodes. *)
Lemma decode_valid (str : string) :
  utf8.ValidRune (utf8.DecodeRuneInString str).1 = true.
Proof.
  unfold utf8.DecodeRuneInString.
  destruct (_ <? 1)%nat; [done|].
  assert (0 <= at_ str 0 < 256) as R.
  { unfold at_. destruct (String.get 0 str); [apply byte_val_range | lia]. }
  revert R. generalize (at_ str 0) as x0. intros x0 R.
  rewrite ?rune2_arith, ?rune3_arith, ?rune4_arith.
  generalize (at_ str 1) as x1, (at_ str 2) as x2, (at_ str 3) as x3.
  intros x1 x2 x3.
  pose proof (Z.mod_pos_bound x1 64 ltac:(lia)).
  pose proof (Z.mod_pos_bound x2 64 ltac:(lia)).
  pose proof (Z.mod_pos_bound x3 64 ltac:(lia)).
  unfold utf8.first.
  repeat match goal with
    | |- context [x0 <? ?b] => destruct (Z.ltb_spec x0 b)
    | |- context [x0 =? ?b] => destruct (Z.eqb_spec x0 b)
    end; try done.
  1: { cbn [fst]. unfold utf8.ValidRune. utf8_consts. decode_cases; (done || lia). }
  all: destruct (_ <? _)%nat; [done|].
  all: utf8_consts.
  all: match goal with
       | |- context [(?a <? ?lo) || (?hi <? ?a)] =>
           destruct (Z.ltb_spec a lo); [done|];
           destruct (Z.ltb_spec hi a); [done|]
       end.
  all: cbn [orb Nat.leb].
  all: repeat (destruct (_ || _); [done|]).
  all: cbn [fst]; unfold utf8.ValidRune; utf8_consts.
  all: decode_cases; try done.
  all: Z.div_mod_to_equations; lia.
Qed.

(** ** The UTF-8 encoder *)

Lemma append_String c str t : String c str +:+ t = String c (str +:+ t).
Proof. done. Qed.

Lemma append_empty t : "" +:+ t = t.
Proof. done. Qed.

Lemma cont_byte x :
  byte_val (byte_of (Z.lor utf8.tx (Z.land (byte x) utf8.maskx)))
  = 128 + x mod 64.
Proof.
  rewrite land_3F. unfold byte. change (2 ^ 8) with 256.
  assert ((x mod 256) mod 64 = x mod 64) as -> by (Z.div_mod_to_equations; lia).
  pose proof (Z.mod_pos_bound x 64 ltac:(lia)).
  rewrite lor_tx by lia. apply byte_val_of. lia.
Qed.

Lemma lead_byte2 x :
  0 <= x < 32 -> byte_val (byte_of (Z.lor utf8.t2 (byte x))) = 192 + x.
Proof.
  intros Hx. unfold byte. rewrite Z.mod_small by lia.
  rewrite lor_t2 by lia. apply byte_val_of. lia.
Qed.

Lemma lead_byte3 x :
  0 <= x < 16 -> byte_val (byte_of (Z.lor utf8.t3 (byte x))) = 224 + x.
Proof.
  intros Hx. unfold byte. rewrite Z.mod_small by lia.
  rewrite lor_t3 by lia. apply byte_val_of. lia.
Qed.

Lemma lead_byte4 x :
  0 <= x < 8 -> byte_val (byte_of (Z.lor utf8.t4 (byte x))) = 240 + x.
Proof.
  intros Hx. unfold byte. rewrite Z.mod_small by lia.
  rewrite lor_t4 by lia. apply byte_val_of. lia.
Qed.

Lemma ValidRune_range r :
  utf8.ValidRune r = true <->
  (0 <= r < 0xD800 \/ 0xDFFF < r <= 0x10FFFF).
Proof.
  unfold utf8.ValidRune. utf8_consts. decode_cases; cbn; split; (done || lia).
Qed.

(** Decoding undoes encoding, on the code points that UTF-8 encodes. *)
Lemma decode_AppendRune (r : Z) (rest : string) :
  utf8.ValidRune r = true ->
  utf8.DecodeRuneInString (utf8.AppendRune r +:+ rest)
  = (r, String.length (utf8.AppendRune r))
  /\ (1 <= String.length (utf8.AppendRune r))%nat.
Proof.
  intros Hr%ValidRune_range.
  unfold utf8.AppendRune, utf8.appendRuneNonASCII, uint32.
  rewrite Z.mod_small by lia. utf8_consts.
  destruct (Z.leb_spec r 127).
  { rewrite append_String, append_empty. cbn [String.length]. split; [|lia].
    rewrite decode_one; unfold byte; rewrite Z.mod_small by lia;
      rewrite byte_val_of by lia; (done || lia). }
  destruct (Z.leb_spec r 2047).
  { rewrite !append_String, append_empty. cbn [String.length]. split; [|lia].
    rewrite !shiftr_6.
    rewrite decode_two; rewrite ?cont_byte, ?lead_byte2;
      try (f_equal); Z.div_mod_to_equations; lia. }
  destruct (Z.ltb_spec 1114111 r); [lia|].
  destruct (Z.leb_spec 55296 r), (Z.leb_spec r 57343); try lia; cbn [orb andb].
  all: destruct (Z.leb_spec r 65535).
  all: rewrite !append_String, append_empty; cbn [String.length]; (split; [|lia]).
  all: rewrite ?shiftr_6, ?shiftr_12, ?shiftr_18.
  all: try (rewrite decode_three; rewrite ?cont_byte, ?lead_byte3;
            try (f_equal); Z.div_mod_to_equations; lia).
  all: rewrite decode_four; rewrite ?cont_byte, ?lead_byte4;
         try (f_equal); Z.div_mod_to_equations; lia.
Qed.

(** ** The range loop over a string *)

Lemma substring_whole (u rest : string) :
  substring 0 (String.length u) (u +:+ rest) = u.
Proof.
  induction u as [|c u IH]; cbn [String.length].
  - rewrite append_empty. by destruct rest.
  - rewrite append_String. cbn [substring]. by rewrite IH.
Qed.

Lemma range_from_skip (u rest : string) :
  utf8.range_from (String.length u) (u +:+ rest) = utf8.range_from 0 rest.
Proof.
  induction u as [|c u IH]; [done|].
  rewrite append_String. cbn [String.length utf8.range_from]. apply IH.
Qed.

(** A rune decoded at the head of a string, and the loop goes on after
    its bytes. *)
Lemma range_head (r : Z) (u rest : string) :
  (1 <= String.length u)%nat ->
  utf8.DecodeRuneInString (u +:+ rest) = (r, String.length u) ->
  utf8.range (u +:+ rest) = (r, u) :: utf8.range rest.
Proof.
  intros Hu Hdec. unfold utf8.range.
  destruct u as [|c u]; [cbn in Hu; lia|].
  rewrite append_String in *. cbn [utf8.range_from]. rewrite Hdec.
  rewrite <- append_String, substring_whole.
  cbn [String.length]. rewrite Nat.sub_1_r. cbn [Nat.pred].
  by rewrite range_from_skip.
Qed.

Lemma range_from_valid (str : string) : forall skip,
  Forall (fun c : Z * string => utf8.ValidRune c.1 = true)
         (utf8.range_from skip str).
Proof.
  induction str as [|c str IH]; intros skip; [constructor|].
  cbn [utf8.range_from]. destruct skip as [|skip]; [|apply IH].
  pose proof (decode_valid (String c str)) as Hv.
  destruct (utf8.DecodeRuneInString (String c str)) as [r w].
  constructor; [done | apply IH].
Qed.

(** The runes of an encoded sequence are that sequence. *)
Lemma range_AppendRunes (rs : list Z) :
  Forall (fun r => utf8.ValidRune r = true) rs ->
  (utf8.range (utf8.AppendRunes rs)).*1 = rs.
Proof.
  induction 1 as [|r rs Hr _ IH]; [done|].
  cbn [utf8.AppendRunes foldr]. fold (utf8.AppendRunes rs).
  destruct (decode_AppendRune r (utf8.AppendRunes rs) Hr) as [Hdec Hlen].
  rewrite (range_head r) by done. cbn [fmap list_fmap fst]. by rewrite IH.
Qed.

(** ** [strings.Map] and [strings.ToLower] *)

Lemma Map_AppendRunes (mapping : Z -> Z) (str : string) :
  (forall r, utf8.ValidRune r = true -> 0 <= mapping r) ->
  strings.Map mapping str
  = utf8.AppendRunes (mapping <$> (utf8.range str).*1).
Proof.
  intros Hpos. unfold strings.Map.
  pose proof (range_from_valid str 0) as Hv. fold (utf8.range str) in Hv.
  induction Hv as [|[r u] l Hr _ IH]; [done|].
  cbn [foldr fmap list_fmap fst utf8.AppendRunes].
  fold (utf8.AppendRunes (mapping <$> l.*1)). rewrite IH.
  destruct (Z.leb_spec 0 (mapping r)); [done|].
  specialize (Hpos r Hr). lia.
Qed.

Section Lower.
Variable To_LowerCase : Z -> Z.

Local Abbreviation lower := (unicode.ToLower To_LowerCase).
Local Abbreviation ToLower := (strings.ToLower To_LowerCase).

(** What the proofs ask of the case tables: above ASCII, a code
    point has a code point for lower case, and this one is in lower
    case. *)
Hypothesis To_LowerCase_lower :
  forall r, utf8.ValidRune r = true -> 0x7F < r ->
    utf8.ValidRune (To_LowerCase r) = true
    /\ lower (To_LowerCase r) = To_LowerCase r.

Lemma lower_valid r :
  utf8.ValidRune r = true ->
  utf8.ValidRune (lower r) = true /\ lower (lower r) = lower r.
Proof.
  intros Hr. destruct (Z.le_gt_cases r 127) as [Hle|Hgt].
  - apply ValidRune_range in Hr. rewrite ValidRune_range.
    unfold unicode.ToLower, unicode.MaxASCII.
    destruct (Z.leb_spec r 127); [|lia].
    destruct (Z.leb_spec 65 r), (Z.leb_spec r 90); cbn [andb].
    all: decode_cases; cbn [andb]; split; lia.
  - assert (lower r = To_LowerCase r) as ->.
    { unfold unicode.ToLower, unicode.MaxASCII.
      destruct (Z.leb_spec r 127); [lia | done]. }
    apply To_LowerCase_lower; [done | lia].
Qed.

Lemma range_ascii c str :
  byte_val c < 0x80 ->
  utf8.range (String c str) = (byte_val c, String c "") :: utf8.range str.
Proof.
  intros Hc. apply (range_head (byte_val c) (String c "") str); [cbn; lia|].
  rewrite append_String, append_empty. by apply decode_one.
Qed.

(** The ASCII branch of [ToLower] computes what [Map] computes. *)
Lemma Map_lowerASCII str :
  strings.isASCII str = true ->
  strings.Map lower str = strings.lowerASCII str.
Proof.
  induction str as [|c str IH]; [done|].
  cbn [strings.isASCII strings.lowerASCII]. unfold utf8.RuneSelf.
  pose proof (byte_val_range c) as Rc.
  destruct (Z.ltb_spec (byte_val c) 128); [|done]. cbn [andb]. intros Hasc.
  unfold strings.Map in *. rewrite range_ascii by done. cbn [foldr fst].
  rewrite IH by done.
  unfold unicode.ToLower, unicode.MaxASCII, utf8.AppendRune, uint32, byte,
    utf8.rune1Max.
  destruct (Z.leb_spec (byte_val c) 127); [|lia].
  destruct (Z.leb_spec 65 (byte_val c)), (Z.leb_spec (byte_val c) 90);
    cbn [andb].
  all: rewrite (Z.mod_small _ (2 ^ 32)) by lia.
  all: rewrite (Z.mod_small _ (2 ^ 8)) by lia.
  all: decode_cases; try lia.
  all: by rewrite ?byte_of_val.
Qed.

Lemma lowerASCII_id str :
  strings.hasUpper str = false -> strings.lowerASCII str = str.
Proof.
  induction str as [|c str IH]; [done|].
  cbn [strings.hasUpper strings.lowerASCII].
  intros [-> Hs]%orb_false_iff. by rewrite IH.
Qed.

Lemma ToLower_Map str : ToLower str = strings.Map lower str.
Proof.
  unfold strings.ToLower. destruct (strings.isASCII str) eqn:Hasc; [|done].
  rewrite Map_lowerASCII by done.
  destruct (strings.hasUpper str) eqn:Hup; [done|]. cbn [negb].
  by rewrite lowerASCII_id.
Qed.

Lemma lower_nonneg r : utf8.ValidRune r = true -> 0 <= lower r.
Proof.
  intros Hr. destruct (lower_valid r Hr) as [Hv%ValidRune_range _]. lia.
Qed.

Lemma ToLower_runes str :
  exists rs,
    ToLower str = utf8.AppendRunes rs
    /\ length rs = length (utf8.range str)
    /\ Forall (fun r => utf8.ValidRune r = true /\ lower r = r) rs.
Proof.
  exists (lower <$> (utf8.range str).*1). split; [|split].
  - rewrite ToLower_Map. apply Map_AppendRunes, lower_nonneg.
  - by rewrite !length_fmap.
  - pose proof (range_from_valid str 0) as Hv. fold (utf8.range str) in Hv.
    induction Hv as [|[r u] l Hr _ IH]; [constructor|].
    cbn [fmap list_fmap fst]. constructor; [|done]. by apply lower_valid.
Qed.

(** A token that is not empty has a lower case that is not empty. *)
Lemma ToLower_token str : str <> "" -> ToLower str <> "".
Proof.
  intros Hstr. destruct (ToLower_runes str) as (rs & -> & Hlen & Hrs).
  destruct Hrs as [|r rs [Hr _] _].
  - destruct str as [|c str]; [done|]. exfalso. revert Hlen.
    unfold utf8.range. cbn [utf8.range_from].
    by destruct (utf8.DecodeRuneInString (String c str)).
  - cbn [utf8.AppendRunes foldr].
    destruct (decode_AppendRune r "" Hr) as [_ Hlen'].
    destruct (utf8.AppendRune r); [cbn in Hlen'; lia | done].
Qed.

(** C7: the canonicalizer of the first engine, [strings.ToLower], is
    idempotent, and it maps the empty sentinel to itself: for every
    token [t], [ToLower (ToLower t) = ToLower t], and [ToLower "" = ""].
    The Unicode case tables are a parameter, of which the theorem asks
    that lower case letters are their own lower case. *)
Theorem ToLower_idempotent :
  (forall t, ToLower (ToLower t) = ToLower t) /\ ToLower "" = "".
Proof.
  split; [|done]. intros t.
  destruct (ToLower_runes t) as (rs & -> & _ & Hrs).
  rewrite ToLower_Map, Map_AppendRunes by apply lower_nonneg.
  rewrite range_AppendRunes by (eapply Forall_impl; [done | by intros r []]).
  f_equal. induction Hrs as [|r rs [_ Hr] _ IH]; [done|].
  cbn [fmap list_fmap]. by rewrite Hr, IH.
Qed.

End Lower.

(** The Latin-1 table is such a table. *)
Lemma latin1_lower_lower (r : Z) :
  utf8.ValidRune r = true -> 0x7F < r ->
  utf8.ValidRune (latin1_lower r) = true
  /\ unicode.ToLower latin1_lower (latin1_lower r) = latin1_lower r.
Proof.
  intros Hr%ValidRune_range Hhi. rewrite ValidRune_range.
  unfold unicode.ToLower, unicode.MaxASCII, latin1_lower.
  destruct (Z.leb_spec 192 r), (Z.leb_spec r 222), (Z.eqb_spec r 215);
    cbn [andb negb].
  all: decode_cases; cbn [andb negb]; split; lia.
Qed.


(** ** The tuple builder *)

Section TupleBuilder.

Variable ReduceEntropy : string -> string.

Local Abbreviation shift := (brain.shift ReduceEntropy).
Local Abbreviation tupleToks_range := (brain.tupleToks_range ReduceEntropy).
Local Abbreviation tupleToks := (brain.tupleToks ReduceEntropy).
Local Abbreviation ribbon := (brain.ribbon ReduceEntropy).
Local Abbreviation windows := (brain.windows ReduceEntropy).

(** [copy] of a shorter source into a fresh prefix. *)
Lemma copy_make (n : nat) (src : list string) :
  (length src <= n)%nat ->
  copy (make n) src = src ++ replicate (n - length src) "".
Proof.
  intros Hle. unfold copy, make.
  rewrite length_replicate, take_ge by lia.
  by rewrite drop_replicate.
Qed.

(** The prefix slides one slot to the left. *)
Lemma shift_slide (n : nat) (p : Tuple) (w : string) :
  (1 <= n)%nat -> length (Prefix p) = n ->
  shift n p w = mkTuple (drop 1 (Prefix p) ++ [ReduceEntropy (Suffix p)]) w.
Proof.
  intros Hn Hlen. unfold brain.shift. cbn [Prefix Suffix].
  rewrite copy_make by (rewrite length_drop; lia).
  rewrite length_drop, Hlen.
  replace (n - (n - 1))%nat with 1%nat by lia. cbn [replicate].
  f_equal.
  replace (n - 1)%nat with (length (drop 1 (Prefix p)) + 0)%nat
    by (rewrite length_drop; lia).
  by rewrite insert_app_r.
Qed.

Lemma tupleToks_range_windows (n : nat) (toks : list string) :
  (1 <= n)%nat ->
  forall (tt : list Tuple) (p : Tuple),
    length (Prefix p) = n ->
    let st := tupleToks_range n tt p toks in
    st.1 ++ [shift n st.2 ""] = tt ++ windows n p toks.
Proof.
  intros Hn. induction toks as [|w toks IH]; intros tt p Hlen; cbn zeta.
  - cbn [brain.tupleToks_range fst snd]. f_equal.
    rewrite shift_slide by done. unfold brain.windows, brain.ribbon. cbn [app imap fmap list_fmap].
    f_equal. f_equal. destruct (Prefix p) as [|x P]; [cbn in Hlen; lia|].
    cbn [drop app]. rewrite !drop_0, take_ge; [done|].
    rewrite length_app. cbn in *. lia.
  - cbn [brain.tupleToks_range].
    specialize (IH (tt ++ [shift n p w]) (shift n p w)). cbn zeta in IH.
    rewrite IH; clear IH.
    2:{ rewrite shift_slide by done. cbn [Prefix].
        rewrite length_app, length_drop. cbn. lia. }
    rewrite <- app_assoc. f_equal. cbn [app].
    rewrite shift_slide by done. unfold brain.windows, brain.ribbon.
    cbn [app imap fmap list_fmap Prefix Suffix].
    destruct (Prefix p) as [|x P] eqn:HP; [cbn in Hlen; lia|].
    cbn [drop app]. rewrite !drop_0. f_equal.
    + f_equal. symmetry.
      transitivity
        (take n ((P ++ [ReduceEntropy (Suffix p)])
                 ++ ReduceEntropy w :: (ReduceEntropy <$> toks))).
      { by rewrite <- app_assoc. }
      apply take_app_length'. rewrite length_app. cbn in *. lia.
    + apply imap_ext. intros i y _. cbn. by rewrite <- app_assoc.
Qed.

Lemma tupleToks_windows (tt : list Tuple) (toks : list string) (n : nat) :
  (1 <= n)%nat ->
  tupleToks tt toks (Z.of_nat n)
  = Some (tt ++ windows n (mkTuple (make n) "") toks).
Proof.
  intros Hn. unfold brain.tupleToks.
  destruct (Z.ltb_spec (Z.of_nat n) 1) as [?|_]; [lia|].
  rewrite Nat2Z.id. f_equal.
  apply (tupleToks_range_windows n toks Hn tt (mkTuple (make n) "")).
  apply length_replicate.
Qed.

Lemma length_windows n p toks :
  length (windows n p toks) = S (length toks).
Proof. unfold brain.windows. rewrite length_imap, length_app. cbn. lia. Qed.

Lemma windows_lookup n p toks i :
  (i <= length toks)%nat ->
  windows n p toks !! i
  = Some (mkTuple (take n (drop (S i) (ribbon p toks)))
                  (default "" (toks !! i))).
Proof.
  intros Hi. unfold brain.windows. rewrite list_lookup_imap.
  destruct (decide (i < length toks)%nat) as [Hlt|Hge].
  - rewrite lookup_app_l by done.
    destruct (lookup_lt_is_Some_2 toks i Hlt) as [w Hw]. by rewrite Hw.
  - assert (i = length toks) as -> by lia.
    rewrite (lookup_ge_None_2 toks) by lia.
    rewrite lookup_app_r by lia. by rewrite Nat.sub_diag.
Qed.


(** The ribbon of a message: with a canonicalizer that keeps the
    sentinel, [n + 1] sentinels and the reduced tokens. *)
Lemma ribbon_start n toks :
  ReduceEntropy "" = "" ->
  ribbon (mkTuple (make n) "") toks
  = replicate (S n) "" ++ (ReduceEntropy <$> toks).
Proof.
  intros He. unfold brain.ribbon, make. cbn [Prefix Suffix]. rewrite He.
  rewrite (cons_middle ""), app_assoc. f_equal.
  by rewrite replicate_S_end.
Qed.

Lemma window_ramp n toks i :
  ReduceEntropy "" = "" -> (i < n)%nat -> (i <= length toks)%nat ->
  take n (drop (S i) (ribbon (mkTuple (make n) "") toks))
  = replicate (n - i) "" ++ (ReduceEntropy <$> take i toks).
Proof.
  intros He Hi Hk. rewrite ribbon_start by done.
  rewrite drop_app_le by (rewrite length_replicate; lia).
  rewrite drop_replicate. replace (S n - S i)%nat with (n - i)%nat by lia.
  rewrite take_app, length_replicate, take_replicate.
  replace (n `min` (n - i))%nat with (n - i)%nat by lia.
  replace (n - (n - i))%nat with i by lia.
  by rewrite fmap_take.
Qed.

Lemma window_last n toks :
  ReduceEntropy "" = "" -> (1 <= n)%nat -> (n <= length toks)%nat ->
  take n (drop (S (length toks)) (ribbon (mkTuple (make n) "") toks))
  = (ReduceEntropy <$> drop (length toks - n) toks).
Proof.
  intros He Hn Hk. rewrite ribbon_start by done.
  rewrite drop_app_ge by (rewrite length_replicate; lia).
  rewrite length_replicate.
  replace (S (length toks) - S n)%nat with (length toks - n)%nat by lia.
  rewrite take_ge by (rewrite length_drop, length_fmap; lia).
  by rewrite fmap_drop.
Qed.

Lemma window_width n p toks i :
  length (Prefix p) = n -> (i <= length toks)%nat ->
  length (take n (drop (S i) (ribbon p toks))) = n.
Proof.
  intros Hp Hi. rewrite length_take, length_drop. unfold brain.ribbon.
  rewrite length_app. cbn [length]. rewrite length_fmap. lia.
Qed.

Lemma filled_slots n (l : list string) :
  Forall (fun w => w <> "") l ->
  length (filter (fun x => x <> "")
                 (replicate n "" ++ (ReduceEntropy <$> l)))
  = length (filter (fun x => x <> "") ((ReduceEntropy <$> l))).
Proof.
  intros _. rewrite filter_app. 
  assert (filter (fun x : string => x <> "") (replicate n "") = []) as ->; [|done].
  induction n as [|n IH]; [done|]. cbn [replicate].
  rewrite filter_cons_False; [done|]. intros H. by apply H.
Qed.

End TupleBuilder.

Section Shape.
Variable ReduceEntropy : string -> string.
Hypothesis ReduceEntropy_sentinel : ReduceEntropy "" = "".

Local Abbreviation tupleToks := (brain.tupleToks ReduceEntropy).

Lemma filled_all (l : list string) :
  Forall (fun w => ReduceEntropy w <> "") l ->
  filter (fun x => x <> "") (ReduceEntropy <$> l) = ReduceEntropy <$> l.
Proof.
  induction 1 as [|w l Hw _ IH]; [done|]. cbn [fmap list_fmap].
  rewrite filter_cons_True by auto. by rewrite IH.
Qed.

End Shape.

Section Traces.
Variable ReduceEntropy : string -> string.
(** C9: the two traces of the tuple builder, for a canonicalizer
    that is the identity on these inputs: order 1 and the token [hi],
    order 2 and the tokens [hello], [world]. *)
Theorem tupleToks_traces :
  ReduceEntropy "" = "" -> ReduceEntropy "hi" = "hi" ->
  ReduceEntropy "hello" = "hello" -> ReduceEntropy "world" = "world" ->
  brain.tupleToks ReduceEntropy [] ["hi"] 1
  = Some [mkTuple [""] "hi"; mkTuple ["hi"] ""]
  /\ brain.tupleToks ReduceEntropy [] ["hello"; "world"] 2
     = Some [mkTuple [""; ""] "hello"; mkTuple [""; "hello"] "world";
             mkTuple ["hello"; "world"] ""].
Proof.
  intros He Hhi Hhello Hworld. split; cbv; by rewrite ?He, ?Hhi, ?Hhello, ?Hworld.
Qed.
End Traces.

Section Learners.
Variable ReduceEntropy : string -> string.
Local Abbreviation tupleToks := (brain.tupleToks ReduceEntropy).
Local Abbreviation Learn := (brain.Learn ReduceEntropy).
Local Abbreviation Forget := (brain.Forget ReduceEntropy).

Lemma tupleToks_Some (toks : list string) (n : Z) :
  1 <= n -> exists tuples, tupleToks [] toks n = Some tuples.
Proof.
  intros Hn.
  exists (brain.windows ReduceEntropy (Z.to_nat n)
            (mkTuple (make (Z.to_nat n)) "") toks).
  rewrite <- (Z2Nat.id n) at 1 by lia. apply tupleToks_windows. lia.
Qed.

(** C5: when [Order] returns less than 1, [Learn] and [Forget] panic
    and the backend is as it was, its [Learn] and [Forget] are not
    called; when [Order] returns at least 1, neither panics: each
    returns what the backend returns for the tuples built. *)
Theorem order_check {B : Type} {L : Learner B}
    (meta : MessageMeta) (tag : string) (toks : list string) (l : B) :
  (Order l < 1 ->
     Learn meta toks l = (l, Panicked brain.order_panic)
     /\ Forget tag toks l = (l, Panicked brain.order_panic))
  /\ (1 <= Order l ->
        exists tuples,
          tupleToks [] toks (Order l) = Some tuples
          /\ Learn meta toks l
             = ((LearnTuples meta tuples l).1,
                Returned (LearnTuples meta tuples l).2)
          /\ Forget tag toks l
             = ((ForgetTuples tag tuples l).1,
                Returned (ForgetTuples tag tuples l).2)).
Proof.
  unfold brain.Learn, brain.Forget. split; intros Hn.
  - destruct (Z.ltb_spec (Order l) 1); [done | lia].
  - destruct (Z.ltb_spec (Order l) 1); [lia|].
    destruct (tupleToks_Some toks (Order l) Hn) as [tuples ->].
    exists tuples. split; [done|].
    by destruct (LearnTuples _ _ _), (ForgetTuples _ _ _).
Qed.

(** C6: for two learners of the same order [n >= 1] and the same
    tokens, the list of tuples that [Forget] passes to the one is the
    list that [Learn] passes to the other: both are what [tupleToks]
    returns. *)
Theorem Forget_same_tuples {B1 B2 : Type} {L1 : Learner B1} {L2 : Learner B2}
    (meta : MessageMeta) (tag : string) (toks : list string)
    (l1 : B1) (l2 : B2) (n : Z) :
  Order l1 = n -> Order l2 = n -> 1 <= n ->
  exists tuples,
    tupleToks [] toks n = Some tuples
    /\ Learn meta toks l1
       = ((LearnTuples meta tuples l1).1, Returned (LearnTuples meta tuples l1).2)
    /\ Forget tag toks l2
       = ((ForgetTuples tag tuples l2).1, Returned (ForgetTuples tag tuples l2).2).
Proof.
  intros H1 H2 Hn. unfold brain.Learn, brain.Forget. rewrite H1, H2.
  destruct (Z.ltb_spec n 1); [lia|].
  destruct (tupleToks_Some toks n Hn) as [tuples ->].
  exists tuples. split; [done|].
  by destruct (LearnTuples _ _ _), (ForgetTuples _ _ _).
Qed.
End Learners.


(** ** [Filter] and its log of writes *)

Section FilterLog.
Variable To_LowerCase : Z -> Z.
Variable prefix : nat.

Local Abbreviation Filter_head := (robot.Filter_head To_LowerCase prefix).
Local Abbreviation Filter_tail := (robot.Filter_tail To_LowerCase prefix).
Local Abbreviation Filter_fuel := (robot.Filter_fuel To_LowerCase prefix).
Local Abbreviation Filter := (robot.Filter To_LowerCase prefix).
Local Abbreviation writes_head := (robot.writes_head To_LowerCase prefix).
Local Abbreviation writes_tail := (robot.writes_tail To_LowerCase prefix).
Local Abbreviation writes_fuel := (robot.writes_fuel To_LowerCase prefix).
Local Abbreviation Filter_writes := (robot.Filter_writes To_LowerCase prefix).

Lemma Filter_head_writes todo : forall i c words,
  Filter_head todo i c words
  = (robot.record c (writes_head todo i words).1, (writes_head todo i words).2).
Proof.
  induction todo as [|todo IH]; intros i c words; [done|].
  cbn [robot.Filter_head robot.writes_head].
  destruct (length words <=? i)%nat; [done|].
  rewrite IH. by destruct (writes_head todo (S i) words).
Qed.

Lemma Filter_tail_writes todo : forall i c words,
  Filter_tail todo i c words
  = match (writes_tail todo i words).2 with
    | Some rest => robot.Restart (robot.record c (writes_tail todo i words).1) rest
    | None => robot.Leave (robot.record c (writes_tail todo i words).1)
    end.
Proof.
  induction todo as [|todo IH]; intros i c words; [done|].
  cbn [robot.Filter_tail robot.writes_tail].
  destruct (len (robot.index words i) =? 0).
  { by destruct (i <? length words - 1)%nat. }
  rewrite IH. by destruct (writes_tail todo (S i) words).
Qed.

Lemma record_app c ws1 ws2 : robot.record c (ws1 ++ ws2) = robot.record (robot.record c ws1) ws2.
Proof. apply foldl_app. Qed.

Lemma Filter_fuel_writes fuel : forall c words,
  Filter_fuel fuel c words = robot.record c <$> writes_fuel fuel words.
Proof.
  induction fuel as [|fuel IH]; intros c words; [done|].
  cbn [robot.Filter_fuel robot.writes_fuel].
  rewrite Filter_head_writes.
  destruct (writes_head prefix 0 words) as [ws1 [|]]; [done|]. cbn [fst snd].
  rewrite Filter_tail_writes.
  destruct (writes_tail _ _ _) as [ws2 [rest|]]; cbn [fst snd].
  - rewrite IH. destruct (writes_fuel fuel rest) as [ws3|]; [|done].
    cbn. by rewrite !record_app.
  - cbn. by rewrite !record_app.
Qed.

Lemma writes_tail_rest todo : forall i words ws rest,
  writes_tail todo i words = (ws, Some rest) ->
  (length rest < length words)%nat.
Proof.
  induction todo as [|todo IH]; intros i words ws rest; [done|].
  cbn [robot.writes_tail].
  destruct (len (robot.index words i) =? 0).
  - destruct (Nat.ltb_spec i (length words - 1)); [|done].
    intros [= _ <-]. rewrite length_drop. lia.
  - destruct (writes_tail todo (S i) words) as [ws' rest'] eqn:E.
    intros [= _ ->]. by eapply IH.
Qed.

(** [Filter] returns: its calls to itself run on shorter and shorter
    lists of words. *)
Lemma writes_fuel_is_Some fuel : forall words,
  (length words < fuel)%nat -> is_Some (writes_fuel fuel words).
Proof.
  induction fuel as [|fuel IH]; intros words Hlen; [lia|].
  cbn [robot.writes_fuel].
  destruct (writes_head prefix 0 words) as [ws1 [|]]; [done|].
  destruct (writes_tail _ _ _) as [ws2 [rest|]] eqn:E; [|done].
  apply writes_tail_rest in E.
  destruct (IH rest) as [ws3 ->]; [lia | done].
Qed.

Lemma Filter_is_Some c words :
  exists ws, Filter_writes words = Some ws /\ Filter c words = Some (robot.record c ws).
Proof.
  destruct (writes_fuel_is_Some (S (length words)) words) as [ws Hws]; [lia|].
  exists ws. split; [done|]. unfold robot.Filter.
  by rewrite Filter_fuel_writes, Hws.
Qed.

(** Reading the chain after a write. *)
Lemma suffixes_append_at c k x key :
  robot.suffixes (robot.append_at c k x) key
  = robot.suffixes c key ++ (if decide (k = key) then [x] else []).
Proof.
  unfold robot.suffixes, robot.append_at. destruct (decide (k = key)) as [->|Hne].
  - by rewrite lookup_insert_eq.
  - rewrite lookup_insert_ne by done. by rewrite app_nil_r.
Qed.

Lemma suffixes_record ws : forall c key,
  robot.suffixes (robot.record c ws) key
  = robot.suffixes c key ++ (filter (fun kv => kv.1 = key) ws).*2.
Proof.
  induction ws as [|[k x] ws IH]; intros c key.
  - by rewrite app_nil_r.
  - cbn [robot.record foldl]. fold (robot.record (robot.append_at c k x) ws).
    rewrite IH, suffixes_append_at, <- app_assoc. f_equal.
    rewrite filter_cons. cbn [fst snd]. by destruct (decide (k = key)).
Qed.

Lemma sum_list_Permutation (l1 l2 : list nat) :
  l1 ≡ₚ l2 -> sum_list l1 = sum_list l2.
Proof. induction 1; cbn; lia. Qed.

Lemma occurrences_insert c k (l : list string) :
  c !! k = None ->
  robot.occurrences (<[k := l]> c) = (length l + robot.occurrences c)%nat.
Proof.
  intros Hk. unfold robot.occurrences.
  rewrite (sum_list_Permutation _ ((fun kv : string * list string => length kv.2)
                                      <$> ((k, l) :: map_to_list c))).
  - done.
  - apply fmap_Permutation. by apply map_to_list_insert.
Qed.

Lemma occurrences_append_at c k x :
  robot.occurrences (robot.append_at c k x) = S (robot.occurrences c).
Proof.
  unfold robot.append_at. destruct (c !! k) as [l|] eqn:Hk; cbn [default].
  - rewrite <- (insert_delete_id c k l) at 2 by done.
    rewrite <- insert_delete_eq.
    rewrite !occurrences_insert by apply lookup_delete_eq.
    rewrite length_app. cbn. lia.
  - by rewrite occurrences_insert.
Qed.

Lemma occurrences_record ws : forall c,
  robot.occurrences (robot.record c ws) = (robot.occurrences c + length ws)%nat.
Proof.
  induction ws as [|[k x] ws IH]; intros c; cbn [robot.record foldl length]; [lia|].
  fold (robot.record (robot.append_at c k x) ws).
  rewrite IH, occurrences_append_at. cbn. lia.
Qed.


(** The first loop writes once per round; it returns at the round
    that finds no word left. *)
Lemma writes_head_length todo : forall i words,
  (i <= length words)%nat ->
  let r := writes_head todo i words in
  if (length words <? i + todo)%nat
  then r.2 = true /\ length r.1 = S (length words - i)
  else r.2 = false /\ length r.1 = todo.
Proof.
  induction todo as [|todo IH]; intros i words Hi; cbn zeta.
  - cbn [robot.writes_head]. destruct (Nat.ltb_spec (length words) (i + 0)); [lia|done].
  - cbn [robot.writes_head].
    destruct (Nat.leb_spec (length words) i).
    + destruct (Nat.ltb_spec (length words) (i + S todo)); [|lia].
      cbn. split; [done|]. lia.
    + specialize (IH (S i) words ltac:(lia)). cbn zeta in IH.
      destruct (writes_head todo (S i) words) as [ws ret]. cbn [fst snd length] in *.
      replace (S i + todo)%nat with (i + S todo)%nat in IH by lia.
      destruct (length words <? i + S todo)%nat; destruct IH as [-> Hl];
        cbn; split; (done || lia).
Qed.

(** Without empty words the second loop writes once per round and
    runs to its end. *)
Lemma writes_tail_length todo : forall i words,
  Forall (fun w => w <> "") words ->
  (i + todo <= length words)%nat ->
  let r := writes_tail todo i words in
  r.2 = None /\ length r.1 = todo.
Proof.
  induction todo as [|todo IH]; intros i words Hne Hi; cbn zeta; [done|].
  cbn [robot.writes_tail].
  destruct (lookup_lt_is_Some_2 words i) as [w Hw]; [lia|].
  assert (robot.index words i = w) as Hiw by (unfold robot.index; by rewrite Hw).
  assert (w <> "") as Hnew by (by eapply Forall_lookup_1 in Hne).
  rewrite !Hiw.
  destruct (Z.eqb_spec (len w) 0) as [H0|_].
  { destruct w; [done|]. unfold len in H0. cbn in H0. lia. }
  specialize (IH (S i) words Hne ltac:(lia)). cbn zeta in IH.
  destruct (writes_tail todo (S i) words) as [ws rest]. cbn [fst snd length] in *.
  destruct IH as [-> Hl]. cbn. split; [done | lia].
Qed.

Lemma Filter_writes_length words :
  Forall (fun w => w <> "") words ->
  exists ws, Filter_writes words = Some ws /\ length ws = S (length words).
Proof.
  intros Hne. unfold robot.Filter_writes. cbn [robot.writes_fuel].
  pose proof (writes_head_length prefix 0 words ltac:(lia)) as Hh. cbn zeta in Hh.
  destruct (writes_head prefix 0 words) as [ws1 ret]. cbn [fst snd] in Hh.
  destruct (Nat.ltb_spec (length words) (0 + prefix)) as [Hlt|Hge]; destruct Hh as [-> Hl1].
  { exists ws1. split; [done|]. lia. }
  pose proof (writes_tail_length (length words - prefix) prefix words Hne ltac:(lia)) as Ht.
  cbn zeta in Ht.
  destruct (writes_tail _ _ _) as [ws2 rest]. cbn [fst snd] in Ht. destruct Ht as [-> Hl2].
  eexists. split; [done|]. rewrite !length_app. cbn. lia.
Qed.

End FilterLog.


(** ** The claims on the first engine *)

Section Engine.
Variable To_LowerCase : Z -> Z.
Variable prefix : nat.

Local Abbreviation Filter := (robot.Filter To_LowerCase prefix).
Local Abbreviation Filter_writes := (robot.Filter_writes To_LowerCase prefix).
Local Abbreviation ToLower := (strings.ToLower To_LowerCase).
Local Abbreviation Walk := (robot.Walk To_LowerCase).
Local Abbreviation Walk_round := (robot.Walk_round To_LowerCase).
Local Abbreviation Walk_loop := (robot.Walk_loop To_LowerCase).

(** C10: [Filter] only appends.  Whatever the chain, the words and the
    key, [Filter] returns, and the occurrences stored under the key
    before the call are a prefix of those stored after it: none is
    removed, changed or moved, and the new ones come last. *)
Theorem Filter_append_only (c : gmap string (list string))
    (words : list string) (key : string) :
  exists c', Filter c words = Some c'
    /\ robot.suffixes c key `prefix_of` robot.suffixes c' key.
Proof.
  destruct (Filter_is_Some To_LowerCase prefix c words) as (ws & _ & ->).
  eexists. split; [done|]. rewrite suffixes_record. by eexists.
Qed.

(** The draws in [0, len(words)) that select [x] are as many as the
    occurrences of [x] in [words]. *)
Lemma count_draws (words : list string) (x : string) :
  forall ws0 : list string,
    length (filter (fun r => (ws0 ++ words) !! r = Some x)
                   (seq (length ws0) (length words)))
    = count_occ string_dec words x.
Proof.
  induction words as [|w words IH]; intros ws0; [done|].
  cbn [length seq count_occ]. rewrite filter_cons.
  rewrite list_lookup_middle by done.
  specialize (IH (ws0 ++ [w])). rewrite <- app_assoc in IH. cbn [app] in IH.
  rewrite length_app in IH. cbn [length] in IH. rewrite Nat.add_1_r in IH.
  destruct (decide (Some w = Some x)) as [[= ->]|Hne].
  - destruct (string_dec x x); [|done]. cbn [length]. by rewrite IH.
  - destruct (string_dec w x) as [->|]; [done|]. by rewrite IH.
Qed.

(** A round of [Walk] on a key that holds [words], from a word with a
    field: the draw, brought into [0, len(words)), is the index of the
    next word in [words]. *)
Lemma Walk_round_draw (c : gmap string (list string)) (word : string)
    (words : list string) (f0 : string) (fields : list string)
    (s : list string) (sum : Z) (draw : nat) :
  c !! ToLower word = Some words -> words <> [] ->
  strings.Fields (strings.TrimRight word " ") = f0 :: fields ->
  exists w,
    words !! (draw mod length words)%nat = Some w
    /\ Walk_round c draw (robot.mkWalk word s sum)
       = if String.eqb w NUL then robot.Break
         else if String.eqb w SOH
         then robot.Next (robot.mkWalk (strings.Join (fields ++ [w]) " ")
                            s sum)
         else robot.Next (robot.mkWalk (strings.Join (fields ++ [w]) " ")
                            (s ++ [w]) (sum + (len w + 1))).
Proof.
  intros Hc Hwords Hf.
  destruct (lookup_lt_is_Some_2 words (draw mod length words)%nat) as [w Hw].
  { apply Nat.mod_upper_bound. by destruct words. }
  exists w. split; [done|].
  unfold robot.Walk_round, robot.Walk_nextword. cbn [robot.word].
  rewrite Hc. destruct (Nat.eqb_spec (length words) 0) as [H0|_].
  { by destruct words. }
  cbn [mbind option_bind]. rewrite Hw. cbn [default]. unfold id.
  destruct (String.eqb w NUL); [done|]. rewrite Hf.
  by destruct (String.eqb w SOH).
Qed.


(** A walk from a word whose key is not in the chain, [c[key] == nil],
    returns the empty string. *)
Lemma Walk_untrained (c : gmap string (list string)) (word : string)
    (rnd : nat -> nat) (fuel : nat) :
  c !! ToLower word = None ->
  Walk (S fuel) rnd c word = Some (Returned "").
Proof.
  intros Hnone. unfold robot.Walk. cbn [robot.Walk_loop robot.sum].
  change (0 <? 400) with true. cbv iota.
  unfold robot.Walk_round. cbn [robot.word]. by rewrite Hnone.
Qed.

(** C8: a walk from a word whose key holds no occurrence, an empty
    list that is not [nil], does not return the empty string: the test
    [words == nil] lets the list through and [rand.Intn(0)] panics,
    whatever the random source. *)
Theorem Walk_no_occurrences (c : gmap string (list string)) (word : string)
    (rnd : nat -> nat) (fuel : nat) :
  c !! ToLower word = Some [] ->
  Walk (S fuel) rnd c word = Some (Panicked "invalid argument to Intn").
Proof.
  intros Hc. unfold robot.Walk. cbn [robot.Walk_loop robot.sum].
  change (0 <? 400) with true. cbv iota.
  unfold robot.Walk_round. cbn [robot.word]. by rewrite Hc.
Qed.

End Engine.

(** C1: for an order [n >= 1] and [k] tokens, none of them empty, the
    tuple builder makes [k + 1] records: [tupleToks] returns [k + 1]
    tuples, and [Filter] writes [k + 1] occurrences to the chain. *)
Theorem tuples_per_message (ReduceEntropy : string -> string)
    (To_LowerCase : Z -> Z) (n : nat) (toks : list string)
    (c : gmap string (list string)) :
  (1 <= n)%nat -> Forall (fun w => w <> "") toks ->
  (exists tt, brain.tupleToks ReduceEntropy [] toks (Z.of_nat n) = Some tt
     /\ length tt = (length toks + 1)%nat)
  /\ (exists ws c',
        robot.Filter_writes To_LowerCase n toks = Some ws
        /\ length ws = (length toks + 1)%nat
        /\ robot.Filter To_LowerCase n c toks = Some c'
        /\ c' = robot.record c ws
        /\ robot.occurrences c' = (robot.occurrences c + (length toks + 1))%nat).
Proof.
  intros Hn Hne. split.
  - eexists. split; [by apply tupleToks_windows|].
    cbn [app]. rewrite length_windows. lia.
  - destruct (Filter_is_Some To_LowerCase n c toks) as (ws & Hws & Hc).
    destruct (Filter_writes_length To_LowerCase n toks Hne) as (ws' & Hws' & Hlen).
    assert (ws' = ws) as -> by congruence.
    exists ws, (robot.record c ws). rewrite occurrences_record.
    repeat split; (done || lia).
Qed.

(** ** A walk that does not end *)

Section Marked.
Variable To_LowerCase : Z -> Z.

Local Abbreviation Walk_round := (robot.Walk_round To_LowerCase).
Local Abbreviation Walk_loop := (robot.Walk_loop To_LowerCase).

Lemma marked_chain_learned :
  robot.Filter To_LowerCase 1 ∅ robot.marked_message = Some robot.marked_chain.
Proof. by vm_compute. Qed.

(** A round on a key that holds one occurrence: every draw selects
    it. *)
Ltac single_round key occ :=
  unfold robot.Walk_round, robot.Walk_nextword, robot.marked_state;
  cbn [robot.word];
  assert (robot.marked_chain !! strings.ToLower To_LowerCase key = Some [occ])
    as -> by (by vm_compute);
  cbn [length Nat.eqb]; rewrite Nat.mod_1_r; by vm_compute.

Lemma marked_round_start (draw : nat) :
  Walk_round robot.marked_chain draw (robot.mkWalk (robot.start_word 1) [] 0)
  = robot.Next (robot.mkWalk "a" ["a"] 2).
Proof. single_round (robot.start_word 1) "a". Qed.

Lemma marked_round_a (draw : nat) :
  Walk_round robot.marked_chain draw (robot.mkWalk "a" ["a"] 2)
  = robot.Next robot.marked_state.
Proof. single_round "a" SOH. Qed.

(** The round that repeats: the start marker is drawn, which is not
    counted in [sum], and the next key is the key of this round. *)
Lemma marked_round_again (draw : nat) :
  Walk_round robot.marked_chain draw robot.marked_state
  = robot.Next robot.marked_state.
Proof. single_round SOH SOH. Qed.

Lemma marked_loop (rnd : nat -> nat) (fuel : nat) : forall k,
  Walk_loop fuel rnd k robot.marked_chain robot.marked_state = None.
Proof.
  induction fuel as [|fuel IH]; intros k; [done|].
  cbn [robot.Walk_loop]. rewrite marked_round_again.
  change (robot.sum robot.marked_state <? 400) with true. cbv iota. apply IH.
Qed.

(** C3, on the code: once the message ["a \001 \001 "] is learned by
    an empty chain of order 1, the loop of [Walk] from the start word
    is still running after any number of rounds, whatever the random
    source draws. *)
Theorem Walk_keeps_running (rnd : nat -> nat) (fuel : nat) :
  robot.Filter To_LowerCase 1 ∅ robot.marked_message = Some robot.marked_chain
  /\ robot.Walk To_LowerCase fuel rnd robot.marked_chain (robot.start_word 1)
     = None.
Proof.
  split; [apply marked_chain_learned|].
  unfold robot.Walk. destruct fuel as [|[|fuel]]; [done | |].
  - cbn [robot.Walk_loop robot.sum]. change (0 <? 400) with true. cbv iota.
    by rewrite marked_round_start.
  - cbn [robot.Walk_loop robot.sum]. change (0 <? 400) with true. cbv iota.
    rewrite marked_round_start. cbn [robot.sum].
    change (2 <? 400) with true. cbv iota.
    rewrite marked_round_a. apply marked_loop.
Qed.

End Marked.

(** ** Where the bound of [Walk] does hold *)

Section Bounded.
Variable To_LowerCase : Z -> Z.

Local Abbreviation Walk_round := (robot.Walk_round To_LowerCase).
Local Abbreviation Walk_loop := (robot.Walk_loop To_LowerCase).

(** A round that goes on has added a word to [sum], unless it drew the
    start marker. *)
Lemma Walk_round_sum (c : gmap string (list string)) (draw : nat)
    (st st' : robot.walk_state) :
  robot.unmarked c -> Walk_round c draw st = robot.Next st' ->
  robot.sum st + 1 <= robot.sum st'.
Proof.
  intros Hc. unfold robot.Walk_round, robot.Walk_nextword.
  destruct (c !! strings.ToLower To_LowerCase (robot.word st))
    as [words|] eqn:Hwords; [|done].
  destruct (length words =? 0)%nat; [done|]. cbn [mbind option_bind].
  destruct (words !! (draw mod length words)%nat) as [w|] eqn:Hw;
    cbn [default].
  - assert (w <> SOH) as Hne.
    { intros ->. apply (Hc _ _ Hwords). by eapply list_elem_of_lookup_2. }
    unfold id. destruct (String.eqb_spec w NUL); [done|].
    destruct (String.eqb_spec w SOH); [done|]. cbn [negb].
    destruct (strings.Fields _); [done|]. intros [= <-]. cbn [robot.sum].
    unfold len. lia.
  - change (String.eqb "" NUL) with false.
    change (negb (String.eqb "" SOH)) with true. cbv iota.
    destruct (strings.Fields _); [done|]. intros [= <-]. cbn [robot.sum].
    unfold len. lia.
Qed.

Lemma Walk_loop_bounded (c : gmap string (list string)) (rnd : nat -> nat)
    (fuel : nat) : forall (k : nat) (st : robot.walk_state),
  robot.unmarked c -> 400 - robot.sum st <= Z.of_nat fuel ->
  is_Some (Walk_loop fuel rnd k c st).
Proof.
  induction fuel as [|fuel IH]; intros k st Hc Hsum; cbn [robot.Walk_loop].
  - destruct (Z.ltb_spec (robot.sum st) 400); [lia | done].
  - destruct (Z.ltb_spec (robot.sum st) 400); [|done].
    destruct (Walk_round c (rnd k) st) as [|st'|msg] eqn:Hround; [done| |done].
    apply IH; [done|]. pose proof (Walk_round_sum c _ _ _ Hc Hround). lia.
Qed.

(** On a chain without the start marker among its suffixes, [Walk]
    is over within 400 rounds of its loop. *)
Lemma Walk_bounded_unmarked (c : gmap string (list string))
    (rnd : nat -> nat) (word : string) :
  robot.unmarked c -> is_Some (robot.Walk To_LowerCase 400 rnd c word).
Proof.
  intros Hc. apply Walk_loop_bounded; [done|]. cbn. lia.
Qed.

(** A key bound to an empty list, which is not [nil], is no missing
    key: [rand.Intn(0)] panics. *)
Lemma Walk_empty_list (rnd : nat -> nat) :
  robot.Walk To_LowerCase 1 rnd {[ "a" := [] ]} "a"
  = Some (Panicked "invalid argument to Intn").
Proof. by vm_compute. Qed.

(** A start word without a field: [strings.Fields(...)[1:]] panics. *)
Lemma Walk_blank_word (rnd : nat -> nat) :
  robot.Walk To_LowerCase 1 rnd {[ "" := ["a"] ]} ""
  = Some (Panicked "slice bounds out of range").
Proof.
  unfold robot.Walk. cbn [robot.Walk_loop robot.sum].
  change (0 <? 400) with true. cbv iota.
  unfold robot.Walk_round, robot.Walk_nextword. cbn [robot.word].
  assert (({[ "" := ["a"] ]} : gmap string (list string))
            !! strings.ToLower To_LowerCase "" = Some ["a"]) as ->
    by (by vm_compute).
  cbn [length Nat.eqb]. rewrite Nat.mod_1_r. by vm_compute.
Qed.

End Bounded.

(** ** The theorems at work on concrete inputs

    The canonicalizer is [strings.ToLower] over the Latin-1 table, the
    backend is the recorder. *)

Lemma tuples_per_message_witness :
  (exists tt,
     brain.tupleToks (strings.ToLower latin1_lower) []
       ["Hello"; "big"; "World"] 2 = Some tt
     /\ length tt = 4%nat)
  /\ (exists ws c',
        robot.Filter_writes latin1_lower 2 ["Hello"; "big"; "World"] = Some ws
        /\ length ws = 4%nat
        /\ robot.Filter latin1_lower 2 ∅ ["Hello"; "big"; "World"] = Some c'
        /\ c' = robot.record ∅ ws
        /\ robot.occurrences c' = (robot.occurrences ∅ + 4)%nat).
Proof.
  apply (tuples_per_message (strings.ToLower latin1_lower) latin1_lower 2
           ["Hello"; "big"; "World"] ∅).
  - lia.
  - repeat (constructor; [done|]). constructor.
Defined.


Lemma strip_marks_idempotent (w : string) :
  strip_marks (strip_marks w) = strip_marks w.
Proof.
  induction w as [|b w IH]; [done|]. cbn [strip_marks].
  destruct (is_mark b) eqn:Hb; [done|]. cbn [strip_marks]. by rewrite Hb, IH.
Qed.


Lemma tupleToks_traces_witness :
  brain.tupleToks (strings.ToLower latin1_lower) [] ["hi"] 1
  = Some [mkTuple [""] "hi"; mkTuple ["hi"] ""]
  /\ brain.tupleToks (strings.ToLower latin1_lower) [] ["hello"; "world"] 2
     = Some [mkTuple [""; ""] "hello"; mkTuple [""; "hello"] "world";
             mkTuple ["hello"; "world"] ""].
Proof.
  apply (tupleToks_traces (strings.ToLower latin1_lower));
    vm_compute; reflexivity.
Defined.

Lemma order_check_witness :
  (brain.Learn (strings.ToLower latin1_lower) (mkMeta "id" "user" "tag" 0)
     ["hi"] (mkRecorder 0 [])
   = (mkRecorder 0 [], Panicked brain.order_panic)
   /\ brain.Forget (strings.ToLower latin1_lower) "tag" ["hi"] (mkRecorder 0 [])
      = (mkRecorder 0 [], Panicked brain.order_panic))
  /\ (exists tuples,
        brain.tupleToks (strings.ToLower latin1_lower) [] ["hi"] 1 = Some tuples
        /\ brain.Learn (strings.ToLower latin1_lower) (mkMeta "id" "user" "tag" 0)
          ["hi"] (mkRecorder 1 [])
        = (mkRecorder 1 [LearnCall (mkMeta "id" "user" "tag" 0) tuples],
           Returned None)
        /\ brain.Forget (strings.ToLower latin1_lower) "tag" ["hi"]
             (mkRecorder 1 [])
           = (mkRecorder 1 [ForgetCall "tag" tuples], Returned None)).
Proof.
  split.
  - apply (proj1 (order_check (strings.ToLower latin1_lower)
                    (mkMeta "id" "user" "tag" 0) "tag" ["hi"]
                    (mkRecorder 0 []))).
    cbn. lia.
  - assert (1 <= Order (mkRecorder 1 [])) as Horder by (cbn; lia).
    exact (proj2 (order_check (strings.ToLower latin1_lower)
                    (mkMeta "id" "user" "tag" 0) "tag" ["hi"]
                    (mkRecorder 1 [])) Horder).
Defined.

Lemma Forget_same_tuples_witness :
  exists tuples,
    brain.tupleToks (strings.ToLower latin1_lower) [] ["hello"; "world"] 2
    = Some tuples
    /\ brain.Learn (strings.ToLower latin1_lower) (mkMeta "id" "user" "tag" 0)
         ["hello"; "world"] (mkRecorder 2 [])
       = (mkRecorder 2 [LearnCall (mkMeta "id" "user" "tag" 0) tuples],
          Returned None)
    /\ brain.Forget (strings.ToLower latin1_lower) "tag" ["hello"; "world"]
         (mkRecorder 2 [ForgetCall "old" []])
       = (mkRecorder 2 [ForgetCall "old" []; ForgetCall "tag" tuples],
          Returned None).
Proof.
  assert (1 <= 2) as Horder by lia.
  exact (Forget_same_tuples (strings.ToLower latin1_lower)
           (mkMeta "id" "user" "tag" 0) "tag" ["hello"; "world"]
           (mkRecorder 2 []) (mkRecorder 2 [ForgetCall "old" []]) 2
           eq_refl eq_refl Horder).
Defined.

Lemma ToLower_idempotent_witness :
  (forall t,
     strings.ToLower latin1_lower (strings.ToLower latin1_lower t)
     = strings.ToLower latin1_lower t)
  /\ strings.ToLower latin1_lower "" = "".
Proof.
  apply (ToLower_idempotent latin1_lower latin1_lower_lower).
Defined.

Lemma Walk_no_occurrences_witness :
  robot.Walk latin1_lower 1 (fun _ => 0%nat) {[ robot.start_word 1 := [] ]}
    (robot.start_word 1)
  = Some (Panicked "invalid argument to Intn").
Proof.
  apply (Walk_no_occurrences latin1_lower {[ robot.start_word 1 := [] ]}
           (robot.start_word 1) (fun _ => 0%nat) 0).
  vm_compute. reflexivity.
Defined.



(** * More of the engines

    What follows covers [badmatch] and [mergemaps], and says more on
    [tupleToks], [Filter] and [Walk]. *)

(** ** The decoder sees no further than an ASCII byte *)

Ltac first_cases x0 :=
  unfold utf8.first;
  repeat match goal with
    | |- context [x0 <? ?b] => destruct (Z.ltb_spec x0 b)
    | |- context [x0 =? ?b] => destruct (Z.eqb_spec x0 b)
    end.

Ltac cont_cases :=
  repeat match goal with
    | |- context [(?a <? ?lo) || (?hi <? ?a)] =>
        destruct (Z.ltb_spec a lo); [try done|];
        destruct (Z.ltb_spec hi a); [try done|]; cbn [orb]
    end.

Lemma decode_width (str : string) :
  str <> "" ->
  (1 <= (utf8.DecodeRuneInString str).2 <= String.length str)%nat.
Proof.
  intros Hs. unfold utf8.DecodeRuneInString.
  destruct str as [|c0 str]; [done|]. cbn [String.length].
  destruct (Nat.ltb_spec (S (String.length str)) 1); [lia|].
  generalize (at_ (String c0 str) 0) as x0. intros x0.
  first_cases x0; cbn [snd]; try lia.
  all: match goal with
       | |- context [(?a <? ?b)%nat] => destruct (Nat.ltb_spec a b)
       end; [cbn; lia|].
  all: cbn [Nat.leb]; cont_cases; cbn [snd]; try lia.
Qed.

Ltac peel_byte c b :=
  match goal with
  | |- context [?a' +:+ String c b] =>
      is_var a'; destruct a' as [|? a'];
      rewrite ?append_String, ?append_empty;
      cbn [String.length Nat.ltb Nat.leb at_ String.get]
  end.

Ltac settle :=
  repeat match goal with
    | |- context [match String.length ?x with O => _ | S _ => _ end] =>
        destruct (String.length x)
    | |- context [(?x <=? ?y)%nat] => destruct (x <=? y)%nat
    end;
  cont_cases; first [done | lia].

Lemma decode_local (a b : string) (c : ascii) :
  a <> "" -> byte_val c < 0x80 ->
  utf8.DecodeRuneInString (a +:+ String c b) = utf8.DecodeRuneInString a.
Proof.
  intros Ha Hc. unfold utf8.DecodeRuneInString.
  destruct a as [|c0 a]; [done|]. rewrite !append_String.
  cbn [String.length Nat.ltb Nat.leb at_ String.get].
  generalize (byte_val c0) as x0. intros x0.
  first_cases x0; try done.
  all: utf8_consts.
  all: peel_byte c b; try settle.
  all: try (peel_byte c b; try settle).
  all: try (peel_byte c b; try settle).
Qed.

(** ** The range loop over a string with an ASCII byte in it *)

Lemma append_empty_r (a : string) : a +:+ "" = a.
Proof. induction a as [|c a IH]; [done|]. by rewrite append_String, IH. Qed.

Lemma append_assoc (a b c : string) : (a +:+ b) +:+ c = a +:+ b +:+ c.
Proof.
  induction a as [|x a IH]; [done|]. by rewrite !append_String, IH.
Qed.

Lemma substring_app_l (a x : string) : forall w,
  (w <= String.length a)%nat -> substring 0 w (a +:+ x) = substring 0 w a.
Proof.
  induction a as [|c a IH]; intros w Hw.
  - cbn in Hw. assert (w = 0%nat) as -> by lia. by destruct x.
  - rewrite append_String. destruct w as [|w]; [done|]. cbn [substring].
    rewrite IH; [done|]. cbn in Hw. lia.
Qed.

Lemma range_from_app (a b : string) (c : ascii) :
  byte_val c < 0x80 ->
  forall k, (k <= String.length a)%nat ->
    utf8.range_from k (a +:+ String c b)
    = utf8.range_from k a ++ utf8.range (String c b).
Proof.
  intros Hc. induction a as [|x a IH]; intros k Hk.
  - cbn in Hk. by assert (k = 0%nat) as -> by lia.
  - rewrite append_String. cbn [utf8.range_from].
    destruct k as [|k]; [|apply IH; cbn in Hk; lia].
    rewrite <- append_String, decode_local by done.
    pose proof (decode_width (String x a) ltac:(done)) as Hw.
    destruct (utf8.DecodeRuneInString (String x a)) as [r w].
    cbn [snd String.length] in Hw.
    rewrite substring_app_l by (cbn; lia).
    cbn [app]. f_equal. apply IH. lia.
Qed.


Lemma substring_split (str : string) : forall w,
  (w <= String.length str)%nat ->
  substring 0 w str +:+ substring w (String.length str - w) str = str.
Proof.
  induction str as [|c str IH]; intros w Hw.
  - cbn in Hw. by assert (w = 0%nat) as -> by lia.
  - destruct w as [|w].
    + cbn [substring String.length Nat.sub]. rewrite append_empty.
      f_equal. specialize (IH 0%nat ltac:(lia)).
      rewrite Nat.sub_0_r in IH. destruct str; [done|]. by cbn in *.
    + cbn [substring String.length Nat.sub]. rewrite append_String.
      f_equal. apply IH. cbn in Hw. lia.
Qed.

Lemma chunks_range_from (str : string) : forall k,
  (k <= String.length str)%nat ->
  robot.chunks (utf8.range_from k str) = substring k (String.length str - k) str.
Proof.
  induction str as [|c str IH]; intros k Hk.
  - cbn in Hk. by assert (k = 0%nat) as -> by lia.
  - cbn [utf8.range_from]. destruct k as [|k].
    + pose proof (decode_width (String c str) ltac:(done)) as Hw.
      destruct (utf8.DecodeRuneInString (String c str)) as [r w].
      cbn [snd String.length] in Hw. unfold robot.chunks. cbn [foldr snd].
      fold (robot.chunks (utf8.range_from (w - 1) str)).
      rewrite IH by lia. destruct w as [|w]; [lia|].
      cbn [substring]. rewrite Nat.sub_1_r. cbn [Nat.pred].
      rewrite append_String, substring_split by lia.
      cbn [String.length Nat.sub]. f_equal.
      pose proof (substring_split str 0 ltac:(lia)) as H0.
      rewrite Nat.sub_0_r in H0. destruct str; [done|]. by cbn in *.
    + cbn [String.length Nat.sub substring]. apply IH. cbn in Hk. lia.
Qed.

Lemma chunks_range (str : string) : robot.chunks (utf8.range str) = str.
Proof.
  unfold utf8.range. rewrite chunks_range_from by lia.
  rewrite Nat.sub_0_r. pose proof (substring_split str 0 ltac:(lia)) as H0.
  rewrite Nat.sub_0_r in H0. destruct str; [done|]. by cbn in *.
Qed.

Lemma range_nonempty (str : string) : str <> "" -> utf8.range str <> [].
Proof.
  destruct str as [|c str]; [done|]. intros _. unfold utf8.range.
  cbn [utf8.range_from]. by destruct (utf8.DecodeRuneInString _).
Qed.

(** ** [strings.Fields] on joined tokens *)


Lemma FieldsFunc_range_field (f : Z -> bool) (la lb : list (Z * string)) :
  Forall (fun p => f p.1 = false) la -> la <> [] ->
  forall cur,
    strings.FieldsFunc_range f cur (la ++ lb)
    = strings.FieldsFunc_range f (Some (default "" cur +:+ robot.chunks la)) lb.
Proof.
  induction 1 as [|[r u] la Hr Hla IH]; [done|]. intros _ cur.
  cbn [app strings.FieldsFunc_range]. cbn [fst] in Hr. rewrite Hr.
  destruct la as [|p la].
  - cbn [app]. unfold robot.chunks. cbn [foldr snd]. by rewrite append_empty_r.
  - rewrite IH by done. cbn [default].
    change (robot.chunks ((r, u) :: p :: la)) with (u +:+ robot.chunks (p :: la)).
    unfold id. by rewrite append_assoc.
Qed.

Lemma range_space (rest : string) :
  utf8.range (String " " rest) = (32, " ") :: utf8.range rest.
Proof. by apply range_ascii. Qed.

Lemma Fields_token (t : string) : robot.token t -> strings.Fields t = [t].
Proof.
  intros [Ht Hs]. unfold strings.Fields, strings.FieldsFunc.
  rewrite <- (app_nil_r (utf8.range t)).
  rewrite FieldsFunc_range_field by (done || by apply range_nonempty).
  cbn. by rewrite chunks_range.
Qed.

Lemma Fields_token_space (t rest : string) :
  robot.token t -> strings.Fields (t +:+ " " +:+ rest) = t :: strings.Fields rest.
Proof.
  intros [Ht Hs]. unfold strings.Fields, strings.FieldsFunc, utf8.range.
  change (" " +:+ rest) with (String " " rest).
  rewrite range_from_app by (done || lia). fold (utf8.range t).
  rewrite FieldsFunc_range_field by (done || by apply range_nonempty).
  rewrite range_space. cbn [strings.FieldsFunc_range default].
  change (unicode.IsSpace 32) with true. cbv iota.
  by rewrite append_empty, chunks_range.
Qed.

Lemma Fields_Join (ts : list string) :
  Forall robot.token ts -> strings.Fields (strings.Join ts " ") = ts.
Proof.
  induction 1 as [|t ts Ht Hts IH]; [done|].
  destruct ts as [|t' ts]; [by apply Fields_token|].
  change (strings.Join (t :: t' :: ts) " ")
    with (t +:+ " " +:+ strings.Join (t' :: ts) " ").
  by rewrite Fields_token_space, IH.
Qed.

Lemma FieldsFunc_range_space_r (l : list (Z * string)) : forall cur,
  strings.FieldsFunc_range unicode.IsSpace cur (l ++ [(32, " ")])
  = strings.FieldsFunc_range unicode.IsSpace cur l.
Proof.
  induction l as [|[r u] l IH]; intros cur.
  - cbn. by destruct cur.
  - cbn [app strings.FieldsFunc_range].
    destruct (unicode.IsSpace r); [destruct cur|]; by rewrite ?IH.
Qed.

(** A space at the end makes no field. *)
Lemma Fields_space_r (str : string) :
  strings.Fields (str +:+ " ") = strings.Fields str.
Proof.
  unfold strings.Fields, strings.FieldsFunc, utf8.range.
  change " " with (String " " "").
  rewrite range_from_app by (done || lia). rewrite range_space.
  apply FieldsFunc_range_space_r.
Qed.

Lemma Repeat_space_r (m : nat) :
  strings.Repeat " " (S m) = strings.Repeat " " m +:+ " ".
Proof.
  induction m as [|m IH]; [done|].
  change (strings.Repeat " " (S (S m))) with (" " +:+ strings.Repeat " " (S m)).
  rewrite IH at 1. change (strings.Repeat " " (S m))
    with (" " +:+ strings.Repeat " " m). by rewrite append_assoc.
Qed.

Lemma Fields_spaces_r (m : nat) : forall str,
  strings.Fields (str +:+ strings.Repeat " " m) = strings.Fields str.
Proof.
  induction m as [|m IH]; intros str.
  - cbn [strings.Repeat]. by rewrite append_empty_r.
  - rewrite Repeat_space_r, <- append_assoc, Fields_space_r. apply IH.
Qed.

Lemma TrimRight_spaces (str : string) :
  exists m, str = strings.TrimRight str " " +:+ strings.Repeat " " m.
Proof.
  unfold strings.TrimRight.
  induction str as [|b str [m IH]]; [by exists 0%nat|].
  cbn [strings.trimRightByte].
  destruct (strings.trimRightByte str " ") as [|x t] eqn:Ht.
  - rewrite append_empty in IH.
    destruct (Ascii.eqb_spec b " ") as [->|].
    + exists (S m). rewrite append_empty. by rewrite IH at 1.
    + exists m. rewrite append_String, append_empty. by rewrite IH at 1.
  - exists m. rewrite append_String. by rewrite IH at 1.
Qed.

(** What [strings.TrimRight] cuts, [strings.Fields] skips. *)
Lemma Fields_TrimRight (str : string) :
  strings.Fields (strings.TrimRight str " ") = strings.Fields str.
Proof.
  destruct (TrimRight_spaces str) as [m Hm].
  rewrite Hm at 2. by rewrite Fields_spaces_r.
Qed.


(** ** More on the tuple builder *)

Section TupleBuilderMore.
Variable ReduceEntropy : string -> string.

Local Abbreviation tupleToks := (brain.tupleToks ReduceEntropy).
Local Abbreviation ribbon := (brain.ribbon ReduceEntropy).
Local Abbreviation windows := (brain.windows ReduceEntropy).

Lemma Suffix_imap (g : nat -> list string) (l : list string) :
  Suffix <$> imap (fun i w => mkTuple (g i) w) l = l.
Proof.
  revert g. induction l as [|w l IH]; intros g; [done|].
  cbn [imap fmap list_fmap Suffix]. f_equal. apply (IH (g ∘ S)).
Qed.

(** X1.  For an order of at least 1, [tupleToks] appends its tuples
    to [tt] and leaves [tt] as it is, the tuples do not depend on
    [tt], and their suffixes are the tokens in order and the empty
    string after them. *)
Theorem tupleToks_suffixes (tt : list Tuple) (toks : list string) (n : Z) :
  1 <= n ->
  exists tuples,
    tupleToks tt toks n = Some (tt ++ tuples)
    /\ tupleToks [] toks n = Some tuples
    /\ Suffix <$> tuples = toks ++ [""].
Proof.
  intros Hn. rewrite <- (Z2Nat.id n) by lia.
  exists (windows (Z.to_nat n) (mkTuple (make (Z.to_nat n)) "") toks).
  rewrite !tupleToks_windows by lia. repeat split.
  unfold brain.windows. apply Suffix_imap.
Qed.

(** A window moves one slot to the right. *)
Lemma window_step {A} (tape : list A) (n j : nat) (x : A) :
  (1 <= n)%nat -> tape !! (j + n)%nat = Some x ->
  take n (drop (S j) tape) = drop 1 (take n (drop j tape)) ++ [x].
Proof.
  intros Hn Hx. destruct n as [|n]; [lia|].
  rewrite (take_S_r _ n x).
  2:{ rewrite lookup_drop. rewrite <- Hx. f_equal. lia. }
  f_equal.
  assert (drop (S j) tape = drop 1 (drop j tape)) as ->
    by (rewrite drop_drop; f_equal; lia).
  generalize (drop j tape) as l. intros l.
  destruct l as [|y l]; [by destruct n|]. cbn [take drop].
  by rewrite drop_0.
Qed.

(** X2.  For an order [n] of at least 1, the prefix of the first tuple
    is [n - 1] empty strings and the reduced empty string, every
    prefix has [n] words, and the prefix of a tuple is the prefix of
    the tuple before it without its first word, with the reduced
    suffix of that tuple after it. *)
Theorem tupleToks_slide (toks : list string) (n : nat) :
  (1 <= n)%nat ->
  exists tuples,
    tupleToks [] toks (Z.of_nat n) = Some tuples
    /\ Prefix <$> tuples !! 0%nat
       = Some (replicate (n - 1) "" ++ [ReduceEntropy ""])
    /\ forall i t t',
         tuples !! i = Some t -> tuples !! S i = Some t' ->
         Prefix t' = drop 1 (Prefix t) ++ [ReduceEntropy (Suffix t)]
         /\ length (Prefix t) = n /\ length (Prefix t') = n.
Proof.
  intros Hn. eexists. split; [by apply tupleToks_windows|]. cbn [app].
  split.
  - rewrite windows_lookup by lia. cbn [fmap option_fmap option_map Prefix].
    unfold brain.ribbon, make. cbn [Prefix Suffix drop]. f_equal.
    destruct n as [|n]; [lia|]. cbn [replicate drop app]. rewrite drop_0.
    replace (S n - 1)%nat with n by lia.
    rewrite (cons_middle (ReduceEntropy "")), app_assoc.
    apply take_app_length'. rewrite length_app, length_replicate. cbn. lia.
  - intros i t t' Ht Ht'.
    assert (S i <= length toks)%nat as Hi.
    { apply lookup_lt_Some in Ht'. rewrite length_windows in Ht'. lia. }
    rewrite windows_lookup in Ht, Ht' by lia.
    injection Ht as <-. injection Ht' as <-. cbn [Prefix Suffix].
    rewrite !window_width by (apply length_replicate || lia).
    split; [|done].
    destruct (lookup_lt_is_Some_2 toks i) as [w Hw]; [lia|]. rewrite Hw.
    cbn [default]. apply window_step; [done|].
    unfold brain.ribbon, make. cbn [Prefix Suffix].
    rewrite lookup_app_r by (rewrite length_replicate; lia).
    rewrite length_replicate. replace (S i + n - n)%nat with (S i) by lia.
    change ((ReduceEntropy <$> toks) !! i = Some (ReduceEntropy w)).
    by rewrite list_lookup_fmap, Hw.
Qed.

End TupleBuilderMore.

(** ** [badmatch] *)

Section BadMatch.
Variable To_LowerCase : Z -> Z.
Local Abbreviation ToLower := (strings.ToLower To_LowerCase).
Local Abbreviation badmatch := (robot.badmatch To_LowerCase).
Local Abbreviation badmatch_loop := (robot.badmatch_loop To_LowerCase).

Lemma badmatch_loop_true (todo : nat) (walk src : list string) :
  badmatch_loop todo walk src = true <->
  forall j, (j < todo)%nat ->
    ToLower (robot.index src (length src - length walk + j))
    = ToLower (robot.index walk j).
Proof.
  induction todo as [|todo IH]; cbn [robot.badmatch_loop].
  - split; [intros _ j Hj; lia | done].
  - replace (length src - length walk + todo - (length src - length walk))%nat
      with todo by lia.
    destruct (String.eqb_spec
                (ToLower (robot.index src (length src - length walk + todo)))
                (ToLower (robot.index walk todo))) as [Heq|Hne]; cbn [negb].
    + rewrite IH. split.
      * intros H j Hj. destruct (decide (j = todo)) as [->|]; [done|].
        apply H. lia.
      * intros H j Hj. apply H. lia.
    + split; [done|]. intros H. destruct Hne. apply H. lia.
Qed.

(** [badmatch] holds when the walk is no longer than the message and
    its words are, up to case, the last words of the message. *)
Lemma badmatch_spec (walk src : list string) :
  badmatch walk src = true <->
  (length walk <= length src)%nat
  /\ ToLower <$> walk = ToLower <$> drop (length src - length walk) src.
Proof.
  unfold robot.badmatch.
  destruct (Nat.ltb_spec (length src) (length walk)) as [Hlt|Hle].
  { split; [done|]. intros [? _]. lia. }
  rewrite badmatch_loop_true. split.
  - intros H. split; [done|]. apply list_eq. intros j.
    rewrite !list_lookup_fmap, lookup_drop.
    destruct (decide (j < length walk)%nat) as [Hj|Hj].
    + specialize (H j Hj). unfold robot.index in H.
      destruct (lookup_lt_is_Some_2 walk j Hj) as [w Hw].
      destruct (lookup_lt_is_Some_2 src (length src - length walk + j))
        as [x Hx]; [lia|].
      rewrite Hw, Hx in *. cbn in *. by rewrite H.
    + rewrite (lookup_ge_None_2 walk), (lookup_ge_None_2 src) by lia. done.
  - intros [_ H] j Hj.
    assert ((ToLower <$> walk) !! j
            = (ToLower <$> drop (length src - length walk) src) !! j) as Hj'
      by (by rewrite H).
    rewrite !list_lookup_fmap, lookup_drop in Hj'. unfold robot.index.
    destruct (lookup_lt_is_Some_2 walk j Hj) as [w Hw].
    destruct (lookup_lt_is_Some_2 src (length src - length walk + j))
      as [x Hx]; [lia|].
    rewrite Hw, Hx in *. cbn in *. congruence.
Qed.

(** X3.  [badmatch walk src] is true if and only if [walk] has at most
    as many words as [src] and the lower-cased words of [walk] are
    the lower-cased last [len(walk)] words of [src]. *)
Theorem badmatch_true (walk src : list string) :
  badmatch walk src = true <->
  (length walk <= length src)%nat
  /\ ToLower <$> walk = ToLower <$> drop (length src - length walk) src.
Proof. apply badmatch_spec. Qed.

(** X4.  The last words of a message, and so the message itself,
    match it; a walk without words matches every message. *)
Theorem badmatch_suffix (pre walk : list string) :
  badmatch walk (pre ++ walk) = true /\ badmatch [] pre = true.
Proof.
  split; apply badmatch_spec.
  - rewrite length_app. split; [lia|].
    replace (length pre + length walk - length walk)%nat with (length pre) by lia.
    by rewrite drop_app_length.
  - cbn [length]. split; [lia|]. rewrite Nat.sub_0_r, drop_all. done.
Qed.

(** X5.  When the chain has no entry under the key of the start word,
    [c[key] == nil], [Walk] returns the empty string, and [badmatch]
    holds of the fields of the empty string and any message: [main]
    drops the walk. *)
Theorem badmatch_untrained (c : gmap string (list string)) (word : string)
    (rnd : nat -> nat) (fuel : nat) (words : list string) :
  c !! ToLower word = None ->
  robot.Walk To_LowerCase (S fuel) rnd c word = Some (Returned "")
  /\ badmatch (strings.Fields "") words = true.
Proof.
  intros Hnone. split; [|done].
  unfold robot.Walk. cbn [robot.Walk_loop robot.sum].
  change (0 <? 400) with true. cbv iota.
  unfold robot.Walk_round. cbn [robot.word]. by rewrite Hnone.
Qed.
End BadMatch.

(** ** [mergemaps] *)

Lemma int_wrap_add (a b : Z) :
  config.int_wrap (config.int_wrap a + b) = config.int_wrap (a + b).
Proof.
  unfold config.int_wrap.
  replace (((a + 2 ^ 63) mod 2 ^ 64 - 2 ^ 63 + b + 2 ^ 63))
    with ((a + 2 ^ 63) mod 2 ^ 64 + b) by lia.
  rewrite Zplus_mod_idemp_l. f_equal. f_equal. lia.
Qed.

Lemma int_wrap_small (a : Z) :
  - 2 ^ 63 <= a < 2 ^ 63 -> config.int_wrap a = a.
Proof. intros Ha. unfold config.int_wrap. rewrite Z.mod_small; lia. Qed.

(** One map added to [u]. *)
Lemma merge_one_lookup (u m : gmap string Z) (k : string) :
  map_fold (fun k v u => config.add_at u k v) u m !! k
  = match m !! k with
    | Some v => Some (config.int_wrap (default 0 (u !! k) + v))
    | None => u !! k
    end.
Proof.
  induction m as [|i x m Hi Hfold IH] using map_first_key_ind.
  - by rewrite map_fold_empty, lookup_empty.
  - rewrite map_fold_insert_first_key by done.
    unfold config.add_at at 1.
    destruct (decide (i = k)) as [->|Hne].
    + rewrite !lookup_insert_eq, IH, Hi. done.
    + rewrite !lookup_insert_ne by done. apply IH.
Qed.
(** The maps of [ms] added to [u]. *)
Lemma merge_fold_lookup (ms : list (gmap string Z)) :
  forall (u : gmap string Z) (k : string),
  foldl (fun u m => map_fold (fun k v u => config.add_at u k v) u m) u ms !! k
  = match omap (fun m : gmap string Z => m !! k) ms with
    | [] => u !! k
    | vs => Some (config.int_wrap (default 0 (u !! k) + foldr Z.add 0 vs))
    end.
Proof.
  induction ms as [|m ms IH]; intros u k; [done|].
  cbn [foldl omap list_omap]. rewrite IH, merge_one_lookup.
  destruct (m !! k) as [v|]; [|done].
  destruct (omap _ ms) as [|v' vs].
  - cbn. f_equal. f_equal. lia.
  - cbn [default foldr]. unfold id. rewrite int_wrap_add. f_equal. f_equal.
    lia.
Qed.

Lemma mergemaps_sum (ms : list (gmap string Z)) (k : string) :
  config.mergemaps ms !! k
  = match omap (fun m : gmap string Z => m !! k) ms with
    | [] => None
    | vs => Some (config.int_wrap (foldr Z.add 0 vs))
    end.
Proof.
  unfold config.mergemaps. rewrite merge_fold_lookup, lookup_empty.
  by destruct (omap _ ms).
Qed.

(** X6.  A key that no map holds is not in the result of [mergemaps];
    any other key holds the sum, wrapped to an [int], of the values
    that the maps hold under it. *)
Theorem mergemaps_lookup (ms : list (gmap string Z)) (k : string) :
  config.mergemaps ms !! k
  = match omap (fun m : gmap string Z => m !! k) ms with
    | [] => None
    | vs => Some (config.int_wrap (foldr Z.add 0 vs))
    end.
Proof. apply mergemaps_sum. Qed.

Lemma Zsum_Permutation (l1 l2 : list Z) :
  l1 ≡ₚ l2 -> foldr Z.add 0 l1 = foldr Z.add 0 l2.
Proof. induction 1; cbn; lia. Qed.

(** X7.  The result of [mergemaps] does not depend on the order of
    its arguments. *)
Theorem mergemaps_Permutation (ms ms' : list (gmap string Z)) :
  ms ≡ₚ ms' -> config.mergemaps ms = config.mergemaps ms'.
Proof.
  intros Hp. apply map_eq. intros k. rewrite !mergemaps_sum.
  assert (omap (fun m : gmap string Z => m !! k) ms
          ≡ₚ omap (fun m : gmap string Z => m !! k) ms') as Ho
    by (by apply omap_Permutation).
  destruct (omap _ ms) as [|v vs] eqn:E, (omap _ ms') as [|v' vs'] eqn:E'.
  - done.
  - by apply Permutation_nil_l in Ho.
  - by apply Permutation_nil_r in Ho.
  - by rewrite (Zsum_Permutation _ _ Ho).
Qed.

(** ** What [Filter] writes *)

Section FilterMore.
Variable To_LowerCase : Z -> Z.
Variable prefix : nat.

Local Abbreviation Filter := (robot.Filter To_LowerCase prefix).
Local Abbreviation Filter_writes := (robot.Filter_writes To_LowerCase prefix).
Local Abbreviation writes_head := (robot.writes_head To_LowerCase prefix).
Local Abbreviation writes_tail := (robot.writes_tail To_LowerCase prefix).
Local Abbreviation writes_fuel := (robot.writes_fuel To_LowerCase prefix).
Local Abbreviation ToLower := (strings.ToLower To_LowerCase).

Lemma stocked_append_at c k x : robot.stocked c -> robot.stocked (robot.append_at c k x).
Proof.
  intros Hc key words. unfold robot.append_at.
  destruct (decide (k = key)) as [->|Hne].
  - rewrite lookup_insert_eq. intros [= <-]. by destruct (default [] (c !! key)).
  - rewrite lookup_insert_ne by done. apply Hc.
Qed.

Lemma stocked_record ws : forall c, robot.stocked c -> robot.stocked (robot.record c ws).
Proof.
  induction ws as [|[k x] ws IH]; intros c Hc; [done|].
  cbn [robot.record foldl]. apply IH. by apply stocked_append_at.
Qed.

(** The suffixes that the first loop writes are the words it walks
    over, and the end marker if it returns. *)
Lemma writes_head_suffixes todo : forall i words,
  (i <= length words)%nat ->
  let r := writes_head todo i words in
  if (length words <? i + todo)%nat
  then r.2 = true /\ r.1.*2 = drop i words ++ [NUL]
  else r.2 = false /\ r.1.*2 = take todo (drop i words).
Proof.
  induction todo as [|todo IH]; intros i words Hi; cbn zeta.
  - cbn [robot.writes_head].
    destruct (Nat.ltb_spec (length words) (i + 0)); [lia|done].
  - cbn [robot.writes_head].
    destruct (Nat.leb_spec (length words) i).
    + destruct (Nat.ltb_spec (length words) (i + S todo)); [|lia].
      cbn. split; [done|]. by rewrite drop_ge by lia.
    + specialize (IH (S i) words ltac:(lia)). cbn zeta in IH.
      destruct (writes_head todo (S i) words) as [ws ret].
      cbn [fst snd fmap list_fmap] in *.
      replace (S i + todo)%nat with (i + S todo)%nat in IH by lia.
      destruct (lookup_lt_is_Some_2 words i) as [w Hw]; [lia|].
      assert (robot.index words i = w) as -> by (unfold robot.index; by rewrite Hw).
      rewrite (drop_S _ _ _ Hw).
      destruct (length words <? i + S todo)%nat; destruct IH as [-> Hl];
        cbn; split; (done || by rewrite Hl).
Qed.

Lemma writes_tail_suffixes todo : forall i words,
  Forall (fun w => w <> "") words ->
  (i + todo <= length words)%nat ->
  let r := writes_tail todo i words in
  r.2 = None /\ r.1.*2 = take todo (drop i words).
Proof.
  induction todo as [|todo IH]; intros i words Hne Hi; cbn zeta; [done|].
  cbn [robot.writes_tail].
  destruct (lookup_lt_is_Some_2 words i) as [w Hw]; [lia|].
  assert (robot.index words i = w) as Hiw by (unfold robot.index; by rewrite Hw).
  assert (w <> "") as Hnew by (by eapply Forall_lookup_1 in Hne).
  rewrite !Hiw.
  destruct (Z.eqb_spec (len w) 0) as [H0|_].
  { destruct w; [done|]. unfold len in H0. cbn in H0. lia. }
  specialize (IH (S i) words Hne ltac:(lia)). cbn zeta in IH.
  destruct (writes_tail todo (S i) words) as [ws rest]. cbn [fst snd] in *.
  destruct IH as [-> Hl]. rewrite (drop_S _ _ _ Hw). cbn. by rewrite Hl.
Qed.

(** X8.  On a message without empty word, the suffixes that [Filter]
    writes are, in the order of its writes, the words of the message
    and the end marker after them. *)
Theorem Filter_writes_suffixes (words : list string) :
  Forall (fun w => w <> "") words ->
  exists ws, Filter_writes words = Some ws /\ ws.*2 = words ++ [NUL].
Proof.
  intros Hne. unfold robot.Filter_writes. cbn [robot.writes_fuel].
  pose proof (writes_head_suffixes prefix 0 words ltac:(lia)) as Hh.
  cbn zeta in Hh.
  destruct (writes_head prefix 0 words) as [ws1 ret]. cbn [fst snd] in Hh.
  rewrite drop_0 in Hh.
  destruct (Nat.ltb_spec (length words) (0 + prefix)) as [Hlt|Hge];
    destruct Hh as [-> Hl1].
  { by exists ws1. }
  pose proof (writes_tail_suffixes (length words - prefix) prefix words Hne
                ltac:(lia)) as Ht.
  cbn zeta in Ht.
  destruct (writes_tail _ _ _) as [ws2 rest]. cbn [fst snd] in Ht.
  destruct Ht as [-> Hl2].
  eexists. split; [done|]. rewrite !fmap_app, Hl1, Hl2. cbn.
  rewrite app_assoc. f_equal.
  rewrite (take_ge (drop prefix words)) by (rewrite length_drop; lia).
  apply take_drop.
Qed.

(** Whatever the words, the last write is an end marker. *)
Lemma writes_head_last todo : forall i words ws,
  writes_head todo i words = (ws, true) ->
  exists ws' key, ws = ws' ++ [(key, NUL)].
Proof.
  induction todo as [|todo IH]; intros i words ws; [done|].
  cbn [robot.writes_head].
  destruct (length words <=? i)%nat.
  - intros [= <-]. by eexists [], _.
  - destruct (writes_head todo (S i) words) as [ws' ret] eqn:E.
    intros [= <- ->]. destruct (IH _ _ _ E) as (ws'' & key & ->).
    by eexists (_ :: ws''), key.
Qed.

Lemma writes_fuel_last fuel : forall words ws,
  writes_fuel fuel words = Some ws ->
  exists ws' key, ws = ws' ++ [(key, NUL)].
Proof.
  induction fuel as [|fuel IH]; intros words ws; [done|].
  cbn [robot.writes_fuel].
  destruct (writes_head prefix 0 words) as [ws1 [|]] eqn:Eh.
  { intros [= <-]. by eapply writes_head_last. }
  destruct (writes_tail _ _ _) as [ws2 [rest|]].
  - destruct (writes_fuel fuel rest) as [ws3|] eqn:E; [|done].
    cbn. intros [= <-]. destruct (IH _ _ E) as (ws' & key & ->).
    exists (ws1 ++ ws2 ++ ws'), key. by rewrite <- !app_assoc.
  - intros [= <-]. eexists (ws1 ++ ws2), _. by rewrite <- !app_assoc.
Qed.

(** X9.  Whatever the words, [Filter] returns, its last write is an
    end marker, which is then the last occurrence under its key, and
    a chain whose keys all hold an occurrence stays so. *)
Theorem Filter_ends (c : gmap string (list string)) (words : list string) :
  exists ws key c',
    Filter_writes words = Some (ws ++ [(key, NUL)])
    /\ Filter c words = Some c'
    /\ last (robot.suffixes c' key) = Some NUL
    /\ (robot.stocked c -> robot.stocked c').
Proof.
  destruct (Filter_is_Some To_LowerCase prefix c words) as (ws & Hws & Hc).
  destruct (writes_fuel_last _ _ _ Hws) as (ws' & key & ->).
  exists ws', key, (robot.record c (ws' ++ [(key, NUL)])).
  repeat split; [done..| |by apply stocked_record].
  rewrite suffixes_record, filter_app, fmap_app, filter_cons_True by done.
  cbn. by rewrite app_assoc, last_snoc.
Qed.
End FilterMore.

(** ** What [Walk] returns *)

Section WalkMore.
Variable To_LowerCase : Z -> Z.
Local Abbreviation ToLower := (strings.ToLower To_LowerCase).
Local Abbreviation Walk_round := (robot.Walk_round To_LowerCase).
Local Abbreviation Walk_loop := (robot.Walk_loop To_LowerCase).

(** What a round that goes on has done. *)
Lemma Walk_round_Next (c : gmap string (list string)) (draw : nat)
    (st st' : robot.walk_state) :
  Walk_round c draw st = robot.Next st' ->
  exists words w f0 fields,
    c !! ToLower (robot.word st) = Some words
    /\ words !! (draw mod length words)%nat = Some w
    /\ w <> NUL
    /\ strings.Fields (strings.TrimRight (robot.word st) " ") = f0 :: fields
    /\ robot.word st' = strings.Join (fields ++ [w]) " "
    /\ (if decide (w = SOH)
        then robot.s st' = robot.s st /\ robot.sum st' = robot.sum st
        else robot.s st' = robot.s st ++ [w]
             /\ robot.sum st' = robot.sum st + (len w + 1)).
Proof.
  unfold robot.Walk_round, robot.Walk_nextword.
  destruct (c !! ToLower (robot.word st)) as [words|] eqn:Hwords; [|done].
  destruct (Nat.eqb_spec (length words) 0) as [|Hlen]; [done|].
  cbn [mbind option_bind].
  destruct (lookup_lt_is_Some_2 words (draw mod length words)%nat) as [w Hw].
  { apply Nat.mod_upper_bound. lia. }
  rewrite Hw. cbn [default]. unfold id.
  destruct (String.eqb_spec w NUL) as [|Hnul]; [done|].
  destruct (strings.Fields _) as [|f0 fields] eqn:Hf; [done|].
  intros [= <-]. exists words, w, f0, fields. cbn [robot.word].
  repeat split; try done.
  destruct (String.eqb_spec w SOH) as [->|Hsoh]; cbn [negb].
  - by rewrite decide_True.
  - by rewrite decide_False.
Qed.

Lemma Walk_round_Panic (c : gmap string (list string)) (draw : nat)
    (st : robot.walk_state) (msg : string) :
  robot.stocked c -> Walk_round c draw st = robot.Panic msg ->
  msg = "slice bounds out of range".
Proof.
  intros Hc. unfold robot.Walk_round.
  destruct (c !! ToLower (robot.word st)) as [words|] eqn:Hwords; [|done].
  destruct (Nat.eqb_spec (length words) 0) as [Hlen|Hlen].
  { destruct words; [|done]. by destruct (Hc _ _ Hwords). }
  destruct (String.eqb _ NUL); [done|].
  destruct (strings.Fields _); [|done]. by intros [= <-].
Qed.

(** X10.  On a chain whose keys all hold an occurrence, [rand.Intn]
    does not panic: a walk that panics does so at
    [strings.Fields(...)[1:]], on a word without field. *)
Theorem Walk_panics_only_on_fields (c : gmap string (list string))
    (fuel : nat) (rnd : nat -> nat) (word msg : string) :
  robot.stocked c ->
  robot.Walk To_LowerCase fuel rnd c word = Some (Panicked msg) ->
  msg = "slice bounds out of range".
Proof.
  intros Hc. unfold robot.Walk.
  generalize (robot.mkWalk word [] 0) as st. generalize 0%nat as k.
  induction fuel as [|fuel IH]; intros k st; cbn [robot.Walk_loop].
  - by destruct (_ <? _).
  - destruct (_ <? _); [|done].
    destruct (Walk_round c (rnd k) st) as [|st'|msg'] eqn:Hr; [done| |].
    + apply IH.
    + intros [= <-]. by eapply Walk_round_Panic.
Qed.

Lemma length_append (a b : string) :
  String.length (a +:+ b) = (String.length a + String.length b)%nat.
Proof.
  induction a as [|c a IH]; [done|].
  rewrite append_String. cbn [String.length]. by rewrite IH.
Qed.

Lemma len_append (a b : string) : len (a +:+ b) = len a + len b.
Proof. unfold len. rewrite length_append. lia. Qed.

(** The length of the joined words, from their weight. *)
Lemma len_Join (s : list string) :
  s <> [] -> len (strings.Join s " ") = robot.weight s - 1.
Proof.
  induction s as [|w s IH]; [done|]. intros _.
  destruct s as [|w' s]; [cbn; lia|].
  change (strings.Join (w :: w' :: s) " ")
    with (w +:+ " " +:+ strings.Join (w' :: s) " ").
  rewrite !len_append, IH by done.
  change (robot.weight (w :: w' :: s)) with (len w + 1 + robot.weight (w' :: s)).
  change (len " ") with 1. lia.
Qed.

Lemma weight_app (s1 s2 : list string) :
  robot.weight (s1 ++ s2) = robot.weight s1 + robot.weight s2.
Proof.
  induction s1 as [|w s1 IH]; cbn [app robot.weight]; [done|]. rewrite IH. lia.
Qed.

Lemma weight_nonneg (s : list string) : 0 <= robot.weight s.
Proof.
  induction s as [|w s IH]; cbn [robot.weight]; [done|]. unfold len. lia.
Qed.



Lemma walk_inv_round (c : gmap string (list string)) (draw : nat)
    (st st' : robot.walk_state) :
  robot.sum st < 400 -> robot.walk_inv c st ->
  Walk_round c draw st = robot.Next st' -> robot.walk_inv c st'.
Proof.
  intros Hsum (Hw & Hd & Hb) Hr.
  destruct (Walk_round_Next _ _ _ _ Hr)
    as (words & w & f0 & fields & Hwords & Hlook & Hnul & _ & _ & Hs).
  destruct (decide (w = SOH)) as [->|Hsoh]; destruct Hs as [Hs' Hsum'].
  - unfold robot.walk_inv. by rewrite Hs', Hsum'.
  - unfold robot.walk_inv. rewrite Hs', Hsum', weight_app. split; [cbn; lia|].
    split.
    + apply Forall_app. split; [done|]. constructor; [|done].
      repeat split; try done. exists (ToLower (robot.word st)), words.
      split; [done|]. by eapply list_elem_of_lookup_2.
    + right. exists (robot.s st), w. split; [done | lia].
Qed.

Lemma Walk_loop_inv (c : gmap string (list string)) (rnd : nat -> nat)
    (fuel : nat) : forall (k : nat) (st : robot.walk_state) (out : string),
  robot.walk_inv c st ->
  Walk_loop fuel rnd k c st = Some (Returned out) ->
  exists st', robot.walk_inv c st' /\ out = strings.Join (robot.s st') " ".
Proof.
  induction fuel as [|fuel IH]; intros k st out Hinv; cbn [robot.Walk_loop].
  - destruct (_ <? _); [done|]. intros [= <-]. by exists st.
  - destruct (Z.ltb_spec (robot.sum st) 400) as [Hlt|];
      [|intros [= <-]; by exists st].
    destruct (Walk_round c (rnd k) st) as [|st'|msg] eqn:Hr.
    + intros [= <-]. by exists st.
    + apply IH. by eapply walk_inv_round.
    + done.
Qed.

(** X11.  What [Walk] returns is words joined by single spaces, each of
    them a suffix held by the chain, none of them the end marker or
    the start marker. *)
Theorem Walk_words_drawn (c : gmap string (list string)) (fuel : nat)
    (rnd : nat -> nat) (word out : string) :
  robot.Walk To_LowerCase fuel rnd c word = Some (Returned out) ->
  exists s, out = strings.Join s " " /\ Forall (robot.drawn c) s.
Proof.
  intros Hw. apply Walk_loop_inv in Hw as (st' & (_ & Hd & _) & ->).
  - by exists (robot.s st').
  - repeat split; [constructor | by left].
Qed.

(** X12.  When no suffix held by the chain is longer than [L] bytes,
    what [Walk] returns is shorter than [400 + L] bytes: the loop
    stops once the words and their spaces add up to 400, so only the
    last word goes past. *)
Theorem Walk_length (c : gmap string (list string)) (fuel : nat)
    (rnd : nat -> nat) (word out : string) (L : Z) :
  0 <= L ->
  (forall key words w, c !! key = Some words -> w ∈ words -> len w <= L) ->
  robot.Walk To_LowerCase fuel rnd c word = Some (Returned out) ->
  len out < 400 + L.
Proof.
  intros HL Hc Hw. apply Walk_loop_inv in Hw as (st' & (_ & Hd & Hb) & ->).
  2:{ repeat split; [constructor | by left]. }
  destruct Hb as [->|(s0 & w & Hs & Hs0)]; [unfold len; cbn; lia|].
  rewrite Hs in *. rewrite len_Join by (by destruct s0).
  apply Forall_app in Hd as [_ Hd]. apply Forall_cons in Hd as [Hd _].
  destruct Hd as (_ & _ & key & words & Hkey & Hin).
  pose proof (Hc key words w Hkey Hin).
  rewrite weight_app. cbn [robot.weight]. lia.
Qed.
End WalkMore.

(** ** The keys that [Filter] writes *)

Section Keys.
Variable To_LowerCase : Z -> Z.
Variable prefix : nat.
Local Abbreviation ToLower := (strings.ToLower To_LowerCase).
Local Abbreviation Filter_writes := (robot.Filter_writes To_LowerCase prefix).
Local Abbreviation writes_head := (robot.writes_head To_LowerCase prefix).
Local Abbreviation writes_tail := (robot.writes_tail To_LowerCase prefix).
Local Abbreviation key := (robot.Filter_key To_LowerCase prefix).

Lemma writes_head_keys (words : list string) todo : forall i,
  (i + todo <= prefix)%nat -> (i <= length words)%nat ->
  (writes_head todo i words).1
  = if (length words <? i + todo)%nat
    then ((fun j => (key words j, robot.index words j))
            <$> seq i (length words - i))
         ++ [(key words (length words), NUL)]
    else (fun j => (key words j, robot.index words j)) <$> seq i todo.
Proof.
  induction todo as [|todo IH]; intros i Hp Hi.
  - cbn [robot.writes_head fst seq fmap list_fmap].
    destruct (Nat.ltb_spec (length words) (i + 0)); [lia|done].
  - cbn [robot.writes_head].
    assert (key words i
            = strings.Repeat (SOH +:+ " ") (prefix - i)
              +:+ ToLower (strings.Join (slice words 0 i) " ")) as Hkey.
    { unfold robot.Filter_key. destruct (Nat.ltb_spec i prefix); [done|lia]. }
    destruct (Nat.leb_spec (length words) i).
    + destruct (Nat.ltb_spec (length words) (i + S todo)); [|lia].
      assert (i = length words) as -> by lia.
      rewrite Nat.sub_diag. cbn. by rewrite Hkey.
    + specialize (IH (S i) ltac:(lia) ltac:(lia)).
      destruct (writes_head todo (S i) words) as [ws ret].
      cbn [fst] in *. rewrite IH, <- Hkey.
      replace (S i + todo)%nat with (i + S todo)%nat by lia.
      destruct (Nat.ltb_spec (length words) (i + S todo)).
      * replace (length words - i)%nat with (S (length words - S i)) by lia.
        done.
      * done.
Qed.

Lemma writes_tail_keys (words : list string) todo : forall i,
  Forall (fun w => w <> "") words ->
  (prefix <= i)%nat -> (i + todo <= length words)%nat ->
  (writes_tail todo i words).1
  = (fun j => (key words j, robot.index words j)) <$> seq i todo.
Proof.
  induction todo as [|todo IH]; intros i Hne Hp Hi; [done|].
  cbn [robot.writes_tail].
  destruct (lookup_lt_is_Some_2 words i) as [w Hw]; [lia|].
  assert (robot.index words i = w) as Hiw by (unfold robot.index; by rewrite Hw).
  assert (w <> "") as Hnew by (by eapply Forall_lookup_1 in Hne).
  rewrite !Hiw.
  destruct (Z.eqb_spec (len w) 0) as [H0|_].
  { destruct w; [done|]. unfold len in H0. cbn in H0. lia. }
  specialize (IH (S i) Hne ltac:(lia) ltac:(lia)).
  destruct (writes_tail todo (S i) words) as [ws rest]. cbn [fst] in *.
  rewrite IH. cbn [seq fmap list_fmap]. rewrite Hiw. f_equal. f_equal.
  unfold robot.Filter_key. destruct (Nat.ltb_spec i prefix); [lia|done].
Qed.

(** The log of [Filter] on words that are not empty: write [i] has the
    key of window [i] and the word [i] for suffix; the last write has
    the end marker. *)
Lemma Filter_writes_keys (words : list string) :
  Forall (fun w => w <> "") words ->
  Filter_writes words
  = Some (((fun j => (key words j, robot.index words j))
             <$> seq 0 (length words))
          ++ [(key words (length words), NUL)]).
Proof.
  intros Hne. unfold robot.Filter_writes. cbn [robot.writes_fuel].
  pose proof (writes_head_keys words prefix 0 ltac:(lia) ltac:(lia)) as Hh.
  pose proof (writes_head_length To_LowerCase prefix prefix 0 words
                ltac:(lia)) as Hr. cbn zeta in Hr.
  destruct (writes_head prefix 0 words) as [ws1 ret]. cbn [fst snd] in *.
  destruct (Nat.ltb_spec (length words) (0 + prefix)) as [Hlt|Hge];
    destruct Hr as [-> _]; subst ws1.
  { by rewrite Nat.sub_0_r. }
  pose proof (writes_tail_keys words (length words - prefix) prefix Hne
                ltac:(lia) ltac:(lia)) as Ht.
  pose proof (writes_tail_length To_LowerCase prefix (length words - prefix)
                prefix words Hne ltac:(lia)) as Hr. cbn zeta in Hr.
  destruct (writes_tail _ _ _) as [ws2 rest]. cbn [fst snd] in *.
  destruct Hr as [-> _]. subst ws2. f_equal.
  rewrite app_assoc, <- fmap_app. f_equal; [f_equal|].
  - rewrite <- seq_app. f_equal. lia.
  - f_equal. unfold robot.Filter_key.
    destruct (Nat.ltb_spec (length words) prefix) as [Hlt|_]; [|done].
    assert (length words = prefix) as Hk by lia.
    rewrite Hk, Nat.sub_diag. done.
Qed.
End Keys.

(** ** A message learned and walked *)

Section RoundTrip.
Variable To_LowerCase : Z -> Z.
Variable prefix : nat.
Local Abbreviation ToLower := (strings.ToLower To_LowerCase).
Local Abbreviation Filter := (robot.Filter To_LowerCase prefix).
Local Abbreviation Filter_writes := (robot.Filter_writes To_LowerCase prefix).
Local Abbreviation Walk_round := (robot.Walk_round To_LowerCase).
Local Abbreviation Walk_loop := (robot.Walk_loop To_LowerCase).
Local Abbreviation key := (robot.Filter_key To_LowerCase prefix).

(** *** Keys *)

Lemma Map_ascii (f : Z -> Z) (c : ascii) (str : string) :
  byte_val c < 0x80 ->
  strings.Map f (String c str)
  = if 0 <=? f (byte_val c)
    then utf8.AppendRune (f (byte_val c)) +:+ strings.Map f str
    else strings.Map f str.
Proof. intros Hc. unfold strings.Map. by rewrite range_ascii. Qed.

Lemma ToLower_marker (str : string) :
  ToLower (SOH +:+ " " +:+ str) = SOH +:+ " " +:+ ToLower str.
Proof.
  rewrite !ToLower_Map.
  change (SOH +:+ " " +:+ str) with (String "001" (String " " str)).
  rewrite !Map_ascii by (by vm_compute). done.
Qed.

Lemma ToLower_Repeat (m : nat) (str : string) :
  ToLower (strings.Repeat (SOH +:+ " ") m +:+ str)
  = strings.Repeat (SOH +:+ " ") m +:+ ToLower str.
Proof.
  induction m as [|m IH]; [done|]. cbn [strings.Repeat].
  rewrite !append_assoc, ToLower_marker, IH. done.
Qed.

Lemma Join_cons (t : string) (ts : list string) :
  ts <> [] -> strings.Join (t :: ts) " " = t +:+ " " +:+ strings.Join ts " ".
Proof. by destruct ts. Qed.

Lemma Join_markers (m : nat) (ts : list string) :
  ts <> [] ->
  strings.Join (replicate m SOH ++ ts) " "
  = strings.Repeat (SOH +:+ " ") m +:+ strings.Join ts " ".
Proof.
  intros Hts. induction m as [|m IH]; [done|].
  cbn [replicate app strings.Repeat].
  rewrite Join_cons by (by destruct m, ts). by rewrite IH, !append_assoc.
Qed.

Lemma Repeat_markers (m : nat) :
  (1 <= m)%nat ->
  strings.Repeat (SOH +:+ " ") m
  = strings.Join (replicate m SOH) " " +:+ " ".
Proof.
  induction m as [|m IH]; [lia|]. intros _. destruct m as [|m]; [done|].
  change (strings.Repeat (SOH +:+ " ") (S (S m)))
    with ((SOH +:+ " ") +:+ strings.Repeat (SOH +:+ " ") (S m)).
  rewrite IH by lia.
  change (replicate (S (S m)) SOH) with (SOH :: replicate (S m) SOH).
  rewrite (Join_cons SOH (replicate (S m) SOH)) by done.
  by rewrite !append_assoc.
Qed.

Lemma start_word_Join :
  (1 <= prefix)%nat ->
  robot.start_word prefix = strings.Join (replicate prefix SOH) " " +:+ " ".
Proof. apply Repeat_markers. Qed.

Lemma token_SOH : robot.token SOH.
Proof. split; [done|]. by repeat constructor. Qed.

(** *** The walk over a learned message *)

Variable words : list string.
Hypothesis prefix_pos : (1 <= prefix)%nat.
Hypothesis words_tokens : Forall robot.token words.
Hypothesis words_plain : Forall (fun w => w <> NUL /\ w <> SOH) words.

Local Abbreviation tape := (robot.tape prefix words).
Local Abbreviation frame := (robot.frame prefix words).
Local Abbreviation walk_word := (robot.walk_word prefix words).
Local Abbreviation walk_at := (robot.walk_at prefix words).




Lemma frame_tokens i : Forall robot.token (frame i).
Proof.
  apply Forall_take, Forall_drop, Forall_app. split; [|done].
  apply Forall_replicate, token_SOH.
Qed.

Lemma frame_length i :
  (i <= length words)%nat -> length (frame i) = prefix.
Proof.
  intros Hi. unfold robot.frame, robot.tape.
  rewrite length_take, length_drop, length_app, length_replicate. lia.
Qed.

Lemma frame_ramp i :
  (i <= prefix)%nat -> frame i = replicate (prefix - i) SOH ++ take i words.
Proof.
  intros Hi. unfold robot.frame, robot.tape.
  rewrite drop_app_le by (rewrite length_replicate; lia).
  rewrite drop_replicate, take_app, length_replicate, take_replicate.
  replace (prefix `min` (prefix - i))%nat with (prefix - i)%nat by lia.
  by replace (prefix - (prefix - i))%nat with i by lia.
Qed.

Lemma frame_window i :
  (prefix <= i)%nat -> frame i = slice words (i - prefix) i.
Proof.
  intros Hi. unfold robot.frame, robot.tape, slice.
  rewrite drop_app_ge by (rewrite length_replicate; lia).
  rewrite length_replicate. f_equal. lia.
Qed.

Lemma walk_word_Fields i :
  strings.Fields (strings.TrimRight (walk_word i) " ") = frame i.
Proof.
  rewrite Fields_TrimRight. destruct i as [|i]; cbn [robot.walk_word].
  - rewrite start_word_Join, Fields_space_r by done.
    rewrite Fields_Join by (apply Forall_replicate, token_SOH).
    by rewrite frame_ramp, Nat.sub_0_r, take_0, app_nil_r by lia.
  - apply Fields_Join, frame_tokens.
Qed.

Lemma walk_word_key i :
  (i <= length words)%nat -> ToLower (walk_word i) = key words i.
Proof.
  intros Hi. unfold robot.Filter_key, slice.
  destruct (Nat.ltb_spec i prefix) as [Hlt|Hge].
  - rewrite Nat.sub_0_r, drop_0. destruct i as [|i]; cbn [robot.walk_word].
    + unfold robot.start_word. rewrite Nat.sub_0_r.
      rewrite <- (append_empty_r (strings.Repeat _ _)) at 1.
      by rewrite ToLower_Repeat.
    + rewrite frame_ramp by lia.
      rewrite Join_markers, ToLower_Repeat; [done|].
      destruct words; [cbn in Hi; lia | done].
  - destruct i as [|i]; [lia|]. cbn [robot.walk_word].
    by rewrite frame_window by lia.
Qed.

Lemma frame_step i w :
  words !! i = Some w -> drop 1 (frame i) ++ [w] = frame (S i).
Proof.
  intros Hw. unfold robot.frame. symmetry. apply window_step; [done|].
  unfold robot.tape. rewrite lookup_app_r by (rewrite length_replicate; lia).
  rewrite length_replicate. by replace (i + prefix - prefix)%nat with i by lia.
Qed.

(** *** The chain after the message *)

Lemma append_at_lookup (c : gmap string (list string)) (k x k' : string) :
  robot.append_at c k x !! k'
  = if decide (k = k') then Some (default [] (c !! k) ++ [x]) else c !! k'.
Proof.
  unfold robot.append_at. destruct (decide (k = k')) as [->|Hne].
  - by rewrite lookup_insert_eq.
  - by rewrite lookup_insert_ne.
Qed.

Lemma record_lookup (ws : list (string * string)) :
  forall (c : gmap string (list string)) (k : string),
    robot.record c ws !! k
    = match (filter (fun kv => kv.1 = k) ws).*2 with
      | [] => c !! k
      | l => Some (default [] (c !! k) ++ l)
      end.
Proof.
  induction ws as [|[k0 x0] ws IH]; intros c k; [done|].
  cbn [robot.record foldl fst snd].
  fold (robot.record (robot.append_at c k0 x0) ws).
  rewrite IH, append_at_lookup, filter_cons. cbn [fst].
  destruct (decide (k0 = k)) as [->|Hne]; cbn [fmap list_fmap snd default].
  - destruct ((filter _ ws).*2) as [|y l]; [done|]. cbn [default].
    unfold id. by rewrite <- app_assoc.
  - done.
Qed.

Lemma filter_absent (ws : list (string * string)) (k : string) :
  k ∉ ws.*1 -> filter (fun kv => kv.1 = k) ws = [].
Proof.
  induction ws as [|[k0 x0] ws IH]; [done|]. cbn [fmap list_fmap fst].
  intros [Hne Hk]%not_elem_of_cons. rewrite filter_cons. cbn [fst].
  rewrite decide_False by done. by apply IH.
Qed.

Lemma filter_unique (ws : list (string * string)) : forall i kv,
  NoDup ws.*1 -> ws !! i = Some kv ->
  filter (fun x => x.1 = kv.1) ws = [kv].
Proof.
  induction ws as [|[k0 x0] ws IH]; intros i kv Hnd Hi; [done|].
  cbn [fmap list_fmap fst] in Hnd. apply NoDup_cons in Hnd as [Hk0 Hnd].
  rewrite filter_cons. cbn [fst]. destruct i as [|i].
  - injection Hi as <-. cbn [fst]. rewrite decide_True by done. f_equal.
    by apply filter_absent.
  - cbn [lookup list_lookup] in Hi.
    assert (kv.1 ∈ ws.*1) as Hin.
    { apply list_elem_of_fmap. exists kv. split; [done|].
      by eapply list_elem_of_lookup_2. }
    rewrite decide_False by (by intros ->). by eapply IH.
Qed.

(** A key written once, under which the chain held nothing, holds the
    suffix written and no other. *)
Lemma record_single (c : gmap string (list string))
    (ws : list (string * string)) (i : nat) (kv : string * string) :
  NoDup ws.*1 -> ws !! i = Some kv -> c !! kv.1 = None ->
  robot.record c ws !! kv.1 = Some [kv.2].
Proof.
  intros Hnd Hi Hc. rewrite record_lookup, (filter_unique ws i) by done.
  cbn. by rewrite Hc.
Qed.

Hypothesis words_weight : robot.weight words < 400.

Variable c : gmap string (list string).
Variable ws : list (string * string).
Hypothesis ws_log : Filter_writes words = Some ws.
Hypothesis ws_once : NoDup ws.*1.
Hypothesis ws_fresh : forall k, k ∈ ws.*1 -> c !! k = None.

Lemma words_nonempty : Forall (fun w => w <> "") words.
Proof. eapply Forall_impl; [apply words_tokens|]. by intros w []. Qed.

Lemma ws_lookup_word i w :
  words !! i = Some w -> ws !! i = Some (key words i, w).
Proof.
  intros Hw. pose proof ws_log as Hlog.
  rewrite Filter_writes_keys in Hlog by apply words_nonempty.
  injection Hlog as <-. apply lookup_lt_Some in Hw as Hi.
  rewrite lookup_app_l by (rewrite length_fmap, length_seq; lia).
  rewrite list_lookup_fmap, lookup_seq_lt by lia. cbn.
  unfold robot.index. by rewrite Hw.
Qed.

Lemma ws_lookup_end :
  ws !! length words = Some (key words (length words), NUL).
Proof.
  pose proof ws_log as Hlog.
  rewrite Filter_writes_keys in Hlog by apply words_nonempty.
  injection Hlog as <-.
  rewrite lookup_app_r by (rewrite length_fmap, length_seq; lia).
  by rewrite length_fmap, length_seq, Nat.sub_diag.
Qed.

Lemma chain_lookup i kv :
  ws !! i = Some kv -> robot.record c ws !! kv.1 = Some [kv.2].
Proof.
  intros Hi. apply (record_single c ws i); [done..|].
  apply ws_fresh, list_elem_of_fmap. exists kv. split; [done|].
  by eapply list_elem_of_lookup_2.
Qed.


Lemma walk_round_word (draw i : nat) (w : string) :
  words !! i = Some w ->
  Walk_round (robot.record c ws) draw (walk_at i) = robot.Next (walk_at (S i)).
Proof.
  intros Hw. apply lookup_lt_Some in Hw as Hi.
  unfold robot.Walk_round, robot.Walk_nextword, robot.walk_at. cbn [robot.word].
  rewrite walk_word_key by lia.
  pose proof (chain_lookup i _ (ws_lookup_word i w Hw)) as Hlook.
  cbn [fst snd] in Hlook. rewrite Hlook.
  cbn [length Nat.eqb mbind option_bind]. rewrite Nat.mod_1_r.
  cbn [lookup list_lookup default]. unfold id.
  pose proof (Forall_lookup_1 _ _ _ _ words_plain Hw) as [Hnul Hsoh].
  destruct (String.eqb_spec w NUL); [done|].
  destruct (String.eqb_spec w SOH); [done|]. cbn [negb].
  rewrite walk_word_Fields.
  pose proof (frame_length i ltac:(lia)) as Hlen.
  pose proof (frame_step i w Hw) as Hstep.
  destruct (frame i) as [|f0 fields]; [cbn in Hlen; lia|].
  cbn [drop] in Hstep. rewrite drop_0 in Hstep.
  cbn [robot.s robot.sum robot.word robot.walk_word]. rewrite Hstep.
  rewrite (take_S_r _ _ _ Hw), weight_app. cbn [robot.weight].
  f_equal. f_equal. lia.
Qed.

Lemma walk_round_end (draw : nat) :
  Walk_round (robot.record c ws) draw (walk_at (length words)) = robot.Break.
Proof.
  unfold robot.Walk_round, robot.Walk_nextword, robot.walk_at. cbn [robot.word].
  rewrite walk_word_key by lia.
  pose proof (chain_lookup _ _ ws_lookup_end) as Hlook.
  cbn [fst snd] in Hlook. rewrite Hlook.
  cbn [length Nat.eqb mbind option_bind]. rewrite Nat.mod_1_r. done.
Qed.

Lemma weight_take i : robot.weight (take i words) <= robot.weight words.
Proof.
  rewrite <- (take_drop i words) at 2. rewrite weight_app.
  pose proof (weight_nonneg (drop i words)). lia.
Qed.

Lemma walk_loop_rest (rnd : nat -> nat) (n : nat) : forall i k fuel,
  (i + n = length words)%nat -> (n < fuel)%nat ->
  Walk_loop fuel rnd k (robot.record c ws) (walk_at i)
  = Some (Returned (strings.Join words " ")).
Proof.
  induction n as [|n IH]; intros i k fuel Hi Hfuel.
  - destruct fuel as [|fuel]; [lia|]. cbn [robot.Walk_loop].
    assert (i = length words) as -> by lia.
    pose proof (weight_take (length words)).
    destruct (Z.ltb_spec (robot.sum (walk_at (length words))) 400) as [|Hge].
    + rewrite walk_round_end. cbn [robot.walk_at robot.s]. by rewrite take_ge.
    + cbn in Hge. lia.
  - destruct fuel as [|fuel]; [lia|]. cbn [robot.Walk_loop].
    pose proof (weight_take i).
    destruct (Z.ltb_spec (robot.sum (walk_at i)) 400) as [|Hge];
      [|cbn in Hge; lia].
    destruct (lookup_lt_is_Some_2 words i) as [w Hw]; [lia|].
    rewrite (walk_round_word _ i w Hw). apply IH; lia.
Qed.

(** The walk from the start word over the chain that [Filter] leaves. *)
Lemma Walk_learned (rnd : nat -> nat) (fuel : nat) :
  (length words < fuel)%nat ->
  exists c',
    Filter c words = Some c'
    /\ robot.Walk To_LowerCase fuel rnd c' (robot.start_word prefix)
       = Some (Returned (strings.Join words " ")).
Proof.
  intros Hfuel.
  destruct (Filter_is_Some To_LowerCase prefix c words) as (ws' & Hws' & Hc').
  assert (ws' = ws) as -> by (rewrite ws_log in Hws'; congruence).
  exists (robot.record c ws). split; [done|].
  apply (walk_loop_rest rnd (length words) 0 0 fuel); lia.
Qed.

(** X13.  A message of tokens, none of them a marker, that weighs less
    than 400 is learned into a chain that holds none of its keys, every
    key written once.  Then [Walk] from the start word returns the
    message, its words joined by single spaces, whatever the random
    source gives. *)
Theorem Walk_after_Filter (rnd : nat -> nat) (fuel : nat) :
  (length words < fuel)%nat ->
  exists c',
    Filter c words = Some c'
    /\ robot.Walk To_LowerCase fuel rnd c' (robot.start_word prefix)
       = Some (Returned (strings.Join words " ")).
Proof. apply Walk_learned. Qed.

(** X14.  After such a message, [badmatch] holds of the fields of the
    walk and the message: [main] does not send a message back to
    where it has just learned it from. *)
Theorem Walk_after_Filter_unoriginal (rnd : nat -> nat) (fuel : nat) :
  (length words < fuel)%nat ->
  exists c' wk,
    Filter c words = Some c'
    /\ robot.Walk To_LowerCase fuel rnd c' (robot.start_word prefix)
       = Some (Returned wk)
    /\ robot.badmatch To_LowerCase (strings.Fields wk) words = true.
Proof.
  intros Hfuel. destruct (Walk_learned rnd fuel Hfuel) as (c' & Hc' & Hwk).
  exists c', (strings.Join words " "). repeat split; [done..|].
  rewrite Fields_Join by done. apply badmatch_spec. split; [done|].
  by rewrite Nat.sub_diag, drop_0.
Qed.
End RoundTrip.

(** ** The case of the keys *)

Section LowerKeys.
Variable To_LowerCase : Z -> Z.
Variable prefix : nat.
Local Abbreviation ToLower := (strings.ToLower To_LowerCase).
Local Abbreviation lower := (unicode.ToLower To_LowerCase).
Local Abbreviation writes_head := (robot.writes_head To_LowerCase prefix).
Local Abbreviation writes_tail := (robot.writes_tail To_LowerCase prefix).
Local Abbreviation writes_fuel := (robot.writes_fuel To_LowerCase prefix).

Hypothesis To_LowerCase_lower :
  forall r, utf8.ValidRune r = true -> 0x7F < r ->
    utf8.ValidRune (To_LowerCase r) = true
    /\ lower (To_LowerCase r) = To_LowerCase r.

Lemma ToLower_fixed (t : string) : ToLower (ToLower t) = ToLower t.
Proof.
  destruct (ToLower_runes To_LowerCase To_LowerCase_lower t)
    as (rs & -> & _ & Hrs).
  rewrite ToLower_Map, Map_AppendRunes
    by apply (lower_nonneg To_LowerCase To_LowerCase_lower).
  rewrite range_AppendRunes by (eapply Forall_impl; [done | by intros r []]).
  f_equal. induction Hrs as [|r rs [_ Hr] _ IH]; [done|].
  cbn [fmap list_fmap]. by rewrite Hr, IH.
Qed.

Lemma writes_head_lower todo : forall i words,
  Forall (fun kv => ToLower kv.1 = kv.1) (writes_head todo i words).1.
Proof.
  induction todo as [|todo IH]; intros i words; [constructor|].
  cbn [robot.writes_head].
  assert (ToLower (strings.Repeat (SOH +:+ " ") (prefix - i)
                   +:+ ToLower (strings.Join (slice words 0 i) " "))
          = strings.Repeat (SOH +:+ " ") (prefix - i)
            +:+ ToLower (strings.Join (slice words 0 i) " ")) as Hkey
    by (by rewrite ToLower_Repeat, ToLower_fixed).
  destruct (length words <=? i)%nat; [by repeat constructor|].
  specialize (IH (S i) words).
  destruct (writes_head todo (S i) words) as [ws ret].
  by constructor.
Qed.

Lemma writes_tail_lower todo : forall i words,
  Forall (fun kv => ToLower kv.1 = kv.1) (writes_tail todo i words).1.
Proof.
  induction todo as [|todo IH]; intros i words; [constructor|].
  cbn [robot.writes_tail].
  destruct (len (robot.index words i) =? 0).
  { destruct (i <? length words - 1)%nat; constructor. }
  specialize (IH (S i) words).
  destruct (writes_tail todo (S i) words) as [ws rest].
  constructor; [apply ToLower_fixed | done].
Qed.

(** X15.  With a case table that maps to lower-case runes, every key
    that [Filter] writes is in lower case: [strings.ToLower] leaves it
    as it is, and so does the lookup of [Walk]. *)
Theorem Filter_keys_lower (words : list string) (ws : list (string * string)) :
  robot.Filter_writes To_LowerCase prefix words = Some ws ->
  Forall (fun kv => ToLower kv.1 = kv.1) ws.
Proof.
  unfold robot.Filter_writes. generalize (S (length words)) as fuel.
  intros fuel. revert words ws.
  induction fuel as [|fuel IH]; intros words ws; [done|].
  cbn [robot.writes_fuel].
  pose proof (writes_head_lower prefix 0 words) as Hh.
  destruct (writes_head prefix 0 words) as [ws1 [|]]; cbn [fst] in Hh.
  { by intros [= <-]. }
  pose proof (writes_tail_lower (length words - prefix) prefix words) as Ht.
  destruct (writes_tail _ _ _) as [ws2 [rest|]]; cbn [fst] in Ht.
  - destruct (writes_fuel fuel rest) as [ws3|] eqn:E; [|done].
    cbn. intros [= <-]. rewrite !Forall_app. eauto.
  - intros [= <-]. rewrite !Forall_app. repeat split; [done..|].
    constructor; [apply ToLower_fixed | constructor].
Qed.
End LowerKeys.

(** ** [Filter] at an empty word *)

Section Restart.
Variable To_LowerCase : Z -> Z.
Variable prefix : nat.

Local Abbreviation Filter := (robot.Filter To_LowerCase prefix).
Local Abbreviation Filter_writes := (robot.Filter_writes To_LowerCase prefix).
Local Abbreviation writes_head := (robot.writes_head To_LowerCase prefix).
Local Abbreviation writes_tail := (robot.writes_tail To_LowerCase prefix).
Local Abbreviation writes_fuel := (robot.writes_fuel To_LowerCase prefix).

(** More fuel does not change the log. *)
Lemma writes_fuel_mono fuel : forall fuel' words ws,
  writes_fuel fuel words = Some ws -> (fuel <= fuel')%nat ->
  writes_fuel fuel' words = Some ws.
Proof.
  induction fuel as [|fuel IH]; intros fuel' words ws; [done|].
  destruct fuel' as [|fuel']; [lia|]. cbn [robot.writes_fuel].
  destruct (writes_head prefix 0 words) as [ws1 [|]]; [done|].
  destruct (writes_tail _ _ _) as [ws2 [rest|]]; [|done].
  destruct (writes_fuel fuel rest) as [ws3|] eqn:E; [|done].
  intros Hws Hle. by rewrite (IH fuel' rest ws3 E) by lia.
Qed.

Lemma slice_app_l {A} (l1 l2 : list A) (i j : nat) :
  (j <= length l1)%nat -> slice (l1 ++ l2) i j = slice l1 i j.
Proof.
  intros Hj. unfold slice.
  destruct (decide (i <= length l1)%nat) as [Hi|Hi].
  - rewrite drop_app_le by done. rewrite take_app_le; [done|].
    rewrite length_drop. lia.
  - by replace (j - i)%nat with 0%nat by lia.
Qed.

Lemma index_app_l (l1 l2 : list string) (i : nat) :
  (i < length l1)%nat -> robot.index (l1 ++ l2) i = robot.index l1 i.
Proof. intros Hi. unfold robot.index. by rewrite lookup_app_l. Qed.

(** The loops see no further than the words they walk over. *)
Lemma writes_head_app todo : forall i ws1 rest,
  (i + todo <= length ws1)%nat ->
  writes_head todo i (ws1 ++ rest) = writes_head todo i ws1.
Proof.
  induction todo as [|todo IH]; intros i ws1 rest Hi; [done|].
  cbn [robot.writes_head]. rewrite length_app.
  destruct (Nat.leb_spec (length ws1 + length rest) i); [lia|].
  destruct (Nat.leb_spec (length ws1) i); [lia|].
  rewrite IH, slice_app_l, index_app_l by lia. done.
Qed.

Lemma index_nonempty (ws1 : list string) (i : nat) :
  Forall (fun w => w <> "") ws1 -> (i < length ws1)%nat ->
  (len (robot.index ws1 i) =? 0) = false.
Proof.
  intros Hne Hi. destruct (lookup_lt_is_Some_2 ws1 i Hi) as [w Hw].
  unfold robot.index. rewrite Hw. cbn [default].
  pose proof (Forall_lookup_1 _ _ _ _ Hne Hw) as Hnew.
  destruct w; [done|]. apply Z.eqb_neq. unfold len. cbn. lia.
Qed.

Lemma writes_tail_stop (ws1 ws2 : list string) (b : nat) : forall a i,
  Forall (fun w => w <> "") ws1 -> (i + a = length ws1)%nat ->
  writes_tail (a + S b) i (ws1 ++ "" :: ws2)
  = ((writes_tail a i ws1).1,
     match ws2 with [] => None | _ => Some ws2 end).
Proof.
  induction a as [|a IH]; intros i Hne Hi.
  - cbn [Nat.add robot.writes_tail fst].
    assert (robot.index (ws1 ++ "" :: ws2) i = "") as ->.
    { unfold robot.index. rewrite lookup_app_r by lia.
      by replace (i - length ws1)%nat with 0%nat by lia. }
    change (len "" =? 0) with true. cbv iota.
    rewrite length_app. cbn [length].
    replace (S i) with (length ws1 + 1)%nat by lia.
    rewrite drop_app_add'; [|done]. cbn [drop].
    destruct ws2 as [|w ws2]; cbn [length].
    + destruct (Nat.ltb_spec i (length ws1 + 1 - 1)); [lia|done].
    + destruct (Nat.ltb_spec i (length ws1 + S (S (length ws2)) - 1));
        [done|lia].
  - cbn [Nat.add robot.writes_tail].
    rewrite index_app_l, slice_app_l by lia.
    rewrite index_nonempty by (done || lia).
    rewrite IH by (done || lia).
    by destruct (writes_tail a (S i) ws1).
Qed.

(** X16.  A message with an empty word after at least [prefix] words,
    none of them empty, and more words after it: [Filter] writes what
    it writes for the words before the empty word, but for their end
    marker, and then what it writes for the words after. *)
Theorem Filter_restart (c : gmap string (list string))
    (ws1 ws2 : list string) :
  Forall (fun w => w <> "") ws1 -> (prefix <= length ws1)%nat ->
  ws2 <> [] ->
  exists l1 k l2,
    Filter_writes ws1 = Some (l1 ++ [(k, NUL)])
    /\ Filter_writes ws2 = Some l2
    /\ Filter_writes (ws1 ++ "" :: ws2) = Some (l1 ++ l2)
    /\ Filter c (ws1 ++ "" :: ws2) = Filter (robot.record c l1) ws2.
Proof.
  intros Hne Hp Hws2.
  destruct (writes_fuel_is_Some To_LowerCase prefix (S (length ws2)) ws2)
    as [l2 Hl2]; [lia|].
  assert (Filter_writes (ws1 ++ "" :: ws2)
          = Some ((writes_head prefix 0 ws1).1
                  ++ (writes_tail (length ws1 - prefix) prefix ws1).1
                  ++ l2)) as HW.
  { unfold robot.Filter_writes. cbn [robot.writes_fuel].
    rewrite writes_head_app by lia.
    pose proof (writes_head_length To_LowerCase prefix prefix 0 ws1
                  ltac:(lia)) as Hh. cbn zeta in Hh.
    destruct (Nat.ltb_spec (length ws1) (0 + prefix)); [lia|].
    destruct (writes_head prefix 0 ws1) as [h ret]. cbn [fst snd] in *.
    destruct Hh as [-> _]. rewrite length_app. cbn [length].
    replace (length ws1 + S (length ws2) - prefix)%nat
      with (length ws1 - prefix + S (length ws2))%nat by lia.
    rewrite writes_tail_stop by (done || lia).
    destruct ws2 as [|w ws2]; [done|].
    rewrite (writes_fuel_mono _ _ _ _ Hl2) by (cbn [length]; lia). done. }
  exists ((writes_head prefix 0 ws1).1
          ++ (writes_tail (length ws1 - prefix) prefix ws1).1),
    (strings.ToLower To_LowerCase
       (strings.Join (slice ws1 (length ws1 - prefix) (length ws1)) " ")),
    l2.
  repeat split.
  - unfold robot.Filter_writes. cbn [robot.writes_fuel].
    pose proof (writes_head_length To_LowerCase prefix prefix 0 ws1
                  ltac:(lia)) as Hh. cbn zeta in Hh.
    destruct (Nat.ltb_spec (length ws1) (0 + prefix)); [lia|].
    destruct (writes_head prefix 0 ws1) as [h ret]. cbn [fst snd] in *.
    destruct Hh as [-> _].
    pose proof (writes_tail_length To_LowerCase prefix (length ws1 - prefix)
                  prefix ws1 Hne ltac:(lia)) as Ht. cbn zeta in Ht.
    destruct (writes_tail _ _ _) as [t rest]. cbn [fst snd] in *.
    destruct Ht as [-> _]. by rewrite app_assoc.
  - done.
  - by rewrite HW, app_assoc.
  - destruct (Filter_is_Some To_LowerCase prefix c (ws1 ++ "" :: ws2))
      as (ws & Hws & ->).
    destruct (Filter_is_Some To_LowerCase prefix
                (robot.record c
                   ((writes_head prefix 0 ws1).1
                    ++ (writes_tail (length ws1 - prefix) prefix ws1).1))
                ws2) as (ws' & Hws' & ->).
    unfold robot.Filter_writes in Hws'. rewrite Hl2 in Hws'.
    injection Hws' as <-. rewrite HW in Hws. injection Hws as <-.
    by rewrite <- record_app, app_assoc.
Qed.
End Restart.

(** ** Chains without start marker *)

Section Unmarked.
Variable To_LowerCase : Z -> Z.
Variable prefix : nat.

Local Abbreviation Filter := (robot.Filter To_LowerCase prefix).
Local Abbreviation writes_head := (robot.writes_head To_LowerCase prefix).
Local Abbreviation writes_tail := (robot.writes_tail To_LowerCase prefix).
Local Abbreviation writes_fuel := (robot.writes_fuel To_LowerCase prefix).

Lemma unmarked_append_at c k x :
  robot.unmarked c -> x <> SOH -> robot.unmarked (robot.append_at c k x).
Proof.
  intros Hc Hx key words. rewrite append_at_lookup.
  destruct (decide (k = key)) as [->|Hne]; [|apply Hc].
  intros [= <-]. rewrite not_elem_of_app, not_elem_of_cons. split.
  - destruct (c !! key) as [l|] eqn:E; [by apply (Hc key)|]. apply not_elem_of_nil.
  - split; [done | apply not_elem_of_nil].
Qed.

Lemma unmarked_record ws : forall c,
  robot.unmarked c -> Forall (fun kv => kv.2 <> SOH) ws ->
  robot.unmarked (robot.record c ws).
Proof.
  induction ws as [|[k x] ws IH]; intros c Hc Hws; [done|].
  apply Forall_cons in Hws as [Hx Hws]. cbn [robot.record foldl].
  apply IH; [|done]. by apply unmarked_append_at.
Qed.

Lemma index_elem_of (words : list string) (i : nat) :
  robot.index words i <> "" -> robot.index words i ∈ words.
Proof.
  unfold robot.index. destruct (words !! i) as [w|] eqn:E; [|done].
  intros _. by eapply list_elem_of_lookup_2.
Qed.

(** A suffix that [Filter] writes is a word of the message or the end
    marker. *)
Lemma writes_head_words todo : forall i words,
  Forall (fun kv => kv.2 = NUL \/ kv.2 ∈ words) (writes_head todo i words).1.
Proof.
  induction todo as [|todo IH]; intros i words; [constructor|].
  cbn [robot.writes_head].
  destruct (Nat.leb_spec (length words) i) as [|Hi].
  { constructor; [by left | constructor]. }
  specialize (IH (S i) words).
  destruct (writes_head todo (S i) words) as [ws ret].
  constructor; [|done]. right. cbn [snd]. unfold robot.index.
  destruct (lookup_lt_is_Some_2 words i Hi) as [w Hw]. rewrite Hw.
  by eapply list_elem_of_lookup_2.
Qed.

Lemma writes_tail_words todo : forall i words,
  let r := writes_tail todo i words in
  Forall (fun kv => kv.2 = NUL \/ kv.2 ∈ words) r.1
  /\ forall rest, r.2 = Some rest -> rest ⊆ words.
Proof.
  induction todo as [|todo IH]; intros i words; cbn zeta; [by split|].
  cbn [robot.writes_tail].
  destruct (Z.eqb_spec (len (robot.index words i)) 0) as [|Hlen].
  { destruct (i <? length words - 1)%nat; (split; [constructor|]); [|done].
    intros rest [= <-]. apply subseteq_drop. }
  specialize (IH (S i) words). cbn zeta in IH.
  destruct (writes_tail todo (S i) words) as [ws rest]. cbn [fst snd] in *.
  destruct IH as [IH1 IH2]. split; [|done]. constructor; [|done].
  right. apply index_elem_of. intros Hw. by rewrite Hw in Hlen.
Qed.

Lemma writes_fuel_words fuel : forall words ws,
  writes_fuel fuel words = Some ws ->
  Forall (fun kv => kv.2 = NUL \/ kv.2 ∈ words) ws.
Proof.
  induction fuel as [|fuel IH]; intros words ws; [done|].
  cbn [robot.writes_fuel].
  pose proof (writes_head_words prefix 0 words) as Hh.
  destruct (writes_head prefix 0 words) as [ws1 [|]]; cbn [fst] in Hh.
  { by intros [= <-]. }
  pose proof (writes_tail_words (length words - prefix) prefix words) as Ht.
  cbn zeta in Ht.
  destruct (writes_tail _ _ _) as [ws2 [rest|]]; cbn [fst snd] in Ht;
    destruct Ht as [Ht Hrest].
  - destruct (writes_fuel fuel rest) as [ws3|] eqn:E; [|done].
    cbn. intros [= <-]. rewrite !Forall_app. repeat split; [done..|].
    eapply Forall_impl; [by apply IH|]. intros kv [?|Hin]; [by left|].
    right. by apply (Hrest rest).
  - intros [= <-]. rewrite !Forall_app. repeat split; [done..|].
    constructor; [by left | constructor].
Qed.

(** X17.  When no suffix of the chain and no word of the message is
    the start marker, [Filter] leaves a chain without start marker
    for suffix, and every walk on it is over within 400 rounds. *)
Theorem Filter_unmarked (c : gmap string (list string))
    (words : list string) :
  robot.unmarked c -> SOH ∉ words ->
  exists c',
    Filter c words = Some c'
    /\ robot.unmarked c'
    /\ forall rnd word, is_Some (robot.Walk To_LowerCase 400 rnd c' word).
Proof.
  intros Hc Hwords.
  destruct (Filter_is_Some To_LowerCase prefix c words) as (ws & Hws & Hc').
  assert (robot.unmarked (robot.record c ws)) as Hun.
  { apply unmarked_record; [done|].
    eapply Forall_impl; [by eapply writes_fuel_words|].
    intros kv [Hk|Hk] Hs; rewrite Hs in Hk; [done|]. by apply Hwords. }
  exists (robot.record c ws). repeat split; [done..|].
  intros rnd word. apply Walk_loop_bounded; [done|]. cbn. lia.
Qed.
End Unmarked.

(** ** A learned word of white space *)

Section Blank.
Variable To_LowerCase : Z -> Z.

Local Abbreviation ToLower := (strings.ToLower To_LowerCase).
Local Abbreviation Filter := (robot.Filter To_LowerCase 1).
Local Abbreviation Filter_writes := (robot.Filter_writes To_LowerCase 1).
Local Abbreviation Walk_round := (robot.Walk_round To_LowerCase).

(** X18.  With prefixes of one word, a message that starts with a word
    of white space other than the space, a tab for one, and goes on
    with another word is learned into a chain that holds none of its
    keys, every key written once.  Then [Walk] from the start word
    panics at [strings.Fields(...)[1:]] in its second round. *)
Theorem Walk_blank_learned (c : gmap string (list string))
    (t b : string) (rest : list string) (ws : list (string * string))
    (rnd : nat -> nat) (fuel : nat) :
  t <> "" -> strings.Fields t = [] -> len t < 399 ->
  b <> "" -> b <> NUL -> Forall (fun w => w <> "") rest ->
  Filter_writes (t :: b :: rest) = Some ws ->
  NoDup ws.*1 -> (forall k, k ∈ ws.*1 -> c !! k = None) ->
  exists c',
    Filter c (t :: b :: rest) = Some c'
    /\ robot.Walk To_LowerCase (S (S fuel)) rnd c' (robot.start_word 1)
       = Some (Panicked "slice bounds out of range").
Proof.
  intros Ht Hblank Hlen Hb Hnul Hrest Hws Hnd Hfresh.
  assert (t <> NUL) as Htnul by (intros ->; by vm_compute in Hblank).
  destruct (Filter_is_Some To_LowerCase 1 c (t :: b :: rest))
    as (ws' & Hws' & Hc').
  assert (ws' = ws) as -> by congruence. clear Hws'.
  exists (robot.record c ws). split; [done|].
  assert (Forall (fun w => w <> "") (t :: b :: rest)) as Hall
    by (by repeat (constructor; [done|])).
  rewrite Filter_writes_keys in Hws by done.
  assert (ws !! 0%nat = Some (ToLower (robot.start_word 1), t)) as H0.
  { injection Hws as <-. reflexivity. }
  assert (ws !! 1%nat = Some (ToLower t, b)) as H1.
  { injection Hws as <-. by cbn. }
  assert (forall i kv, ws !! i = Some kv ->
            robot.record c ws !! kv.1 = Some [kv.2]) as Hlook.
  { intros i kv Hi. apply (record_single c ws i); [done..|].
    apply Hfresh, list_elem_of_fmap. exists kv. split; [done|].
    by eapply list_elem_of_lookup_2. }
  apply Hlook in H0, H1. cbn [fst snd] in H0, H1.
  unfold robot.Walk. cbn [robot.Walk_loop robot.sum].
  change (0 <? 400) with true. cbv iota.
  assert (Walk_round (robot.record c ws) (rnd 0%nat)
            (robot.mkWalk (robot.start_word 1) [] 0)
          = robot.Next
              (robot.mkWalk t
                 (if negb (String.eqb t SOH) then [t] else [])
                 (if negb (String.eqb t SOH) then 0 + (len t + 1) else 0)))
    as ->.
  { unfold robot.Walk_round, robot.Walk_nextword. cbn [robot.word].
    rewrite H0. cbn [length Nat.eqb mbind option_bind]. rewrite Nat.mod_1_r.
    cbn [lookup list_lookup default]. unfold id.
    destruct (String.eqb_spec t NUL); [done|].
    rewrite Fields_TrimRight, (start_word_Join 1), Fields_space_r by lia.
    change (strings.Join (replicate 1 SOH) " ") with SOH.
    rewrite (Fields_token SOH token_SOH). cbn [app strings.Join].
    by destruct (negb (String.eqb t SOH)). }
  cbn [robot.Walk_loop robot.sum].
  assert (((if negb (String.eqb t SOH) then 0 + (len t + 1) else 0) <? 400)
          = true) as ->.
  { apply Z.ltb_lt. destruct (negb _); lia. }
  unfold robot.Walk_round, robot.Walk_nextword. cbn [robot.word].
  rewrite H1. cbn [length Nat.eqb mbind option_bind]. rewrite Nat.mod_1_r.
  cbn [lookup list_lookup default]. unfold id.
  destruct (String.eqb_spec b NUL); [done|].
  by rewrite Fields_TrimRight, Hblank.
Qed.
End Blank.

(** ** More theorems at work on concrete inputs *)

Lemma tupleToks_suffixes_witness :
  exists tuples,
    brain.tupleToks (strings.ToLower latin1_lower) [mkTuple ["x"; "y"] "z"]
      ["Hello"; "big"; "World"] 2
    = Some ([mkTuple ["x"; "y"] "z"] ++ tuples)
    /\ brain.tupleToks (strings.ToLower latin1_lower) []
         ["Hello"; "big"; "World"] 2
       = Some tuples
    /\ Suffix <$> tuples = ["Hello"; "big"; "World"] ++ [""].
Proof.
  apply (tupleToks_suffixes (strings.ToLower latin1_lower)
           [mkTuple ["x"; "y"] "z"] ["Hello"; "big"; "World"] 2).
  lia.
Defined.

Lemma tupleToks_slide_witness :
  exists tuples,
    brain.tupleToks (strings.ToLower latin1_lower) []
      ["Hello"; "big"; "World"] (Z.of_nat 2)
    = Some tuples
    /\ Prefix <$> tuples !! 0%nat
       = Some (replicate (2 - 1) "" ++ [strings.ToLower latin1_lower ""])
    /\ forall i t t',
         tuples !! i = Some t -> tuples !! S i = Some t' ->
         Prefix t'
         = drop 1 (Prefix t) ++ [strings.ToLower latin1_lower (Suffix t)]
         /\ length (Prefix t) = 2%nat /\ length (Prefix t') = 2%nat.
Proof.
  apply (tupleToks_slide (strings.ToLower latin1_lower)
           ["Hello"; "big"; "World"] 2).
  lia.
Defined.

Lemma badmatch_untrained_witness :
  robot.Walk latin1_lower 1 (fun _ => 0%nat) ∅ (robot.start_word 2)
  = Some (Returned "")
  /\ robot.badmatch latin1_lower (strings.Fields "") ["Hello"; "World"]
     = true.
Proof.
  apply (badmatch_untrained latin1_lower ∅ (robot.start_word 2)
           (fun _ => 0%nat) 0 ["Hello"; "World"]).
  reflexivity.
Defined.

Lemma mergemaps_Permutation_witness :
  config.mergemaps [ {[ "a" := 1 ]}; {[ "a" := 2; "b" := 3 ]} ]
  = config.mergemaps [ {[ "a" := 2; "b" := 3 ]}; {[ "a" := 1 ]} ].
Proof.
  apply (mergemaps_Permutation
           [ {[ "a" := 1 ]}; {[ "a" := 2; "b" := 3 ]} ]
           [ {[ "a" := 2; "b" := 3 ]}; {[ "a" := 1 ]} ]).
  apply perm_swap.
Defined.

Lemma Filter_writes_suffixes_witness :
  exists ws,
    robot.Filter_writes latin1_lower 2 ["Hello"; "big"; "World"] = Some ws
    /\ ws.*2 = ["Hello"; "big"; "World"] ++ [NUL].
Proof.
  apply (Filter_writes_suffixes latin1_lower 2 ["Hello"; "big"; "World"]).
  repeat (constructor; [done|]). constructor.
Defined.

Lemma Walk_panics_only_on_fields_witness :
  robot.stocked {[ "" := ["a"] ]}
  /\ robot.Walk latin1_lower 1 (fun _ => 0%nat) {[ "" := ["a"] ]} ""
     = Some (Panicked "slice bounds out of range")
  /\ "slice bounds out of range" = "slice bounds out of range".
Proof.
  assert (robot.stocked {[ "" := ["a"] ]}) as Hc.
  { intros key words [_ <-]%lookup_singleton_Some. discriminate. }
  assert (robot.Walk latin1_lower 1 (fun _ => 0%nat) {[ "" := ["a"] ]} ""
          = Some (Panicked "slice bounds out of range")) as Hw
    by (vm_compute; reflexivity).
  split; [exact Hc|]. split; [exact Hw|].
  exact (Walk_panics_only_on_fields latin1_lower {[ "" := ["a"] ]} 1
           (fun _ => 0%nat) "" "slice bounds out of range" Hc Hw).
Defined.

Lemma Walk_words_drawn_witness :
  exists s,
    "big" = strings.Join s " "
    /\ Forall (robot.drawn {[ "hello" := ["big"]; "big" := [NUL] ]}) s.
Proof.
  apply (Walk_words_drawn latin1_lower
           {[ "hello" := ["big"]; "big" := [NUL] ]} 2 (fun _ => 0%nat)
           "Hello" "big").
  vm_compute. reflexivity.
Defined.

Lemma Walk_length_witness : len "big" < 400 + 3.
Proof.
  apply (Walk_length latin1_lower
           {[ "hello" := ["big"]; "big" := [NUL] ]} 2 (fun _ => 0%nat)
           "Hello" "big" 3).
  - lia.
  - intros key words w Hkey Hin.
    apply lookup_insert_Some in Hkey as [[_ <-]|[_ Hkey]].
    + apply list_elem_of_singleton in Hin as ->. vm_compute. discriminate.
    + apply lookup_singleton_Some in Hkey as [_ <-].
      apply list_elem_of_singleton in Hin as ->. vm_compute. discriminate.
  - vm_compute. reflexivity.
Defined.

Lemma Walk_after_Filter_witness :
  exists c',
    robot.Filter latin1_lower 2 ∅ ["Hello"; "big"; "World"] = Some c'
    /\ robot.Walk latin1_lower 4 (fun k => k) c' (robot.start_word 2)
       = Some (Returned (strings.Join ["Hello"; "big"; "World"] " ")).
Proof.
  assert (Forall robot.token ["Hello"; "big"; "World"]) as Htok.
  { repeat (constructor; [split; [done | repeat constructor]|]).
    constructor. }
  assert (Forall (fun w => w <> NUL /\ w <> SOH) ["Hello"; "big"; "World"])
    as Hplain by (repeat (constructor; [done|]); constructor).
  destruct (Filter_is_Some latin1_lower 2 ∅ ["Hello"; "big"; "World"])
    as (ws & Hws & _).
  apply (Walk_after_Filter latin1_lower 2 ["Hello"; "big"; "World"]
           ltac:(lia) Htok Hplain ltac:(vm_compute; reflexivity) ∅ ws Hws).
  - vm_compute in Hws. injection Hws as <-. apply (bool_decide_unpack _).
    vm_compute. exact I.
  - intros k _. apply lookup_empty.
  - cbn. lia.
Defined.

Lemma Walk_after_Filter_unoriginal_witness :
  exists c' wk,
    robot.Filter latin1_lower 2 ∅ ["Hello"; "big"; "World"] = Some c'
    /\ robot.Walk latin1_lower 4 (fun k => k) c' (robot.start_word 2)
       = Some (Returned wk)
    /\ robot.badmatch latin1_lower (strings.Fields wk)
         ["Hello"; "big"; "World"] = true.
Proof.
  assert (Forall robot.token ["Hello"; "big"; "World"]) as Htok.
  { repeat (constructor; [split; [done | repeat constructor]|]).
    constructor. }
  assert (Forall (fun w => w <> NUL /\ w <> SOH) ["Hello"; "big"; "World"])
    as Hplain by (repeat (constructor; [done|]); constructor).
  destruct (Filter_is_Some latin1_lower 2 ∅ ["Hello"; "big"; "World"])
    as (ws & Hws & _).
  apply (Walk_after_Filter_unoriginal latin1_lower 2
           ["Hello"; "big"; "World"]
           ltac:(lia) Htok Hplain ltac:(vm_compute; reflexivity) ∅ ws Hws).
  - vm_compute in Hws. injection Hws as <-. apply (bool_decide_unpack _).
    vm_compute. exact I.
  - intros k _. apply lookup_empty.
  - cbn. lia.
Defined.

Lemma Filter_keys_lower_witness :
  exists ws,
    robot.Filter_writes latin1_lower 2 ["Hello"; "big"; "World"] = Some ws
    /\ Forall (fun kv => strings.ToLower latin1_lower kv.1 = kv.1) ws.
Proof.
  eexists. split; [vm_compute; reflexivity|].
  apply (Filter_keys_lower latin1_lower 2 latin1_lower_lower
           ["Hello"; "big"; "World"]).
  vm_compute. reflexivity.
Defined.

Lemma Filter_unmarked_witness :
  exists c',
    robot.Filter latin1_lower 2 {[ "hello" := ["big"] ]} ["Hello"; "World"]
    = Some c'
    /\ robot.unmarked c'
    /\ forall rnd word, is_Some (robot.Walk latin1_lower 400 rnd c' word).
Proof.
  apply (Filter_unmarked latin1_lower 2 {[ "hello" := ["big"] ]}
           ["Hello"; "World"]).
  - intros key words [_ <-]%lookup_singleton_Some.
    intros Hin%list_elem_of_singleton. discriminate.
  - intros Hin. repeat (apply elem_of_cons in Hin as [Hin|Hin]; [discriminate|]).
    by apply elem_of_nil in Hin.
Defined.

Lemma Filter_restart_witness :
  exists l1 k l2,
    robot.Filter_writes latin1_lower 1 ["Hello"; "big"]
    = Some (l1 ++ [(k, NUL)])
    /\ robot.Filter_writes latin1_lower 1 ["World"] = Some l2
    /\ robot.Filter_writes latin1_lower 1 (["Hello"; "big"] ++ "" :: ["World"])
       = Some (l1 ++ l2)
    /\ robot.Filter latin1_lower 1 ∅ (["Hello"; "big"] ++ "" :: ["World"])
       = robot.Filter latin1_lower 1 (robot.record ∅ l1) ["World"].
Proof.
  apply (Filter_restart latin1_lower 1 ∅ ["Hello"; "big"] ["World"]).
  - repeat (constructor; [done|]). constructor.
  - cbn. lia.
  - discriminate.
Defined.

Lemma Walk_blank_learned_witness :
  exists c',
    robot.Filter latin1_lower 1 ∅ [String "009" ""; "b"] = Some c'
    /\ robot.Walk latin1_lower 2 (fun k => k) c' (robot.start_word 1)
       = Some (Panicked "slice bounds out of range").
Proof.
  destruct (Filter_is_Some latin1_lower 1 ∅ [String "009" ""; "b"])
    as (ws & Hws & _).
  apply (Walk_blank_learned latin1_lower ∅ (String "009" "") "b" [] ws
           (fun k => k) 0
           ltac:(done) ltac:(vm_compute; reflexivity) ltac:(vm_compute; reflexivity)
           ltac:(done) ltac:(done) ltac:(constructor) Hws).
  - vm_compute in Hws. injection Hws as <-. apply (bool_decide_unpack _).
    vm_compute. exact I.
  - intros k _. apply lookup_empty.
Defined.
